(** * x-ai-demo: DOM reduction and locator verification

    A shallow embedding of [src/index.js]:

    - [simplifyDOM] (lines 15-60), the function evaluated inside the page:
      clone [document.body], remove the subtrees of a fixed list of tags,
      strip the attributes that are not on the allow-list, drop blank text
      nodes and every node that is neither an element nor a text node, and
      return the clone's [innerHTML];
    - [getElementSelector] (lines 65-128), the host pipeline around it:
      truncation of the markup, the call to the model, the check of the
      returned selector against the live page, and the [try]/[catch]/
      [finally] that surrounds all of it.

    Modelling choices.

    - A JavaScript string is the list of its UTF-16 code units.
    - A DOM node is a tree whose nodes carry an identity ([nid]); the page is
      a store of such trees, and every DOM call that the source makes on a
      node reference is an operation on the store by identity. [cloneNode]
      allocates identities that the store does not use yet.
    - An element has a namespace, a prefix, a local name and an [is] value,
      a list of attributes (each with its namespace, prefix, local name and
      value), its child nodes, and the nodes of its template contents, which
      only an HTML [template] element uses.  The page is an HTML document:
      [removeAttribute] lower-cases its argument on an HTML element, and a
      type selector is matched the way the browser the source drives does.
    - The page a URL loads to, the model and the selector engine are a
      record of functions ([host]); the console, the highlight and the
      browser's shutdown are events of a trace.  [getElementSelector] is
      the pipeline over a browser none of whose own calls throws;
      [getElementSelector_on] is the same function with the outcome of
      every awaited call to the browser ([launch], [newPage], the two
      waits, [evaluate], [highlight], [close]) as a parameter, and agrees
      with it when all of them return. *)

From Stdlib Require Import String Ascii.
From Stdlib Require Import Bool Arith NArith ZArith Lia.
From Stdlib Require Import List FinFun Permutation.
Import ListNotations.

(* ================================================================= *)
(** ** JavaScript strings *)

Module JS.

Definition jsstring : Type := list N.

(** An ASCII literal of the source, as code units. *)
Definition lit (s : string) : jsstring :=
  map N_of_ascii (list_ascii_of_string s).

Fixpoint eqb (a b : jsstring) : bool :=
  match a, b with
  | [], [] => true
  | x :: a', y :: b' => N.eqb x y && eqb a' b'
  | _, _ => false
  end.

(** [Array.prototype.includes] on an array of strings. *)
Definition includes (l : list jsstring) (x : jsstring) : bool :=
  existsb (eqb x) l.

(** ECMAScript WhiteSpace and LineTerminator code points, the ones
    [String.prototype.trim] strips. *)
Definition isWhiteSpace (c : N) : bool :=
  ((9 <=? c) && (c <=? 13) || (c =? 32) || (c =? 160) || (c =? 5760)
   || (8192 <=? c) && (c <=? 8202) || (c =? 8232) || (c =? 8233)
   || (c =? 8239) || (c =? 8287) || (c =? 12288) || (c =? 65279))%N.

Fixpoint trimStart (s : jsstring) : jsstring :=
  match s with
  | [] => []
  | c :: s' => if isWhiteSpace c then trimStart s' else s
  end.

Definition trimEnd (s : jsstring) : jsstring := rev (trimStart (rev s)).

Definition trim (s : jsstring) : jsstring := trimEnd (trimStart s).

(** Truthiness of a string: the empty string is the only falsy one. *)
Definition truthy (s : jsstring) : bool :=
  match s with [] => false | _ :: _ => true end.

(** [String.prototype.slice(start, end)] with integer arguments. *)
Definition slice (s : jsstring) (start finish : Z) : jsstring :=
  let len := Z.of_nat (length s) in
  let clamp (k : Z) := if (k <? 0)%Z then Z.max (len + k) 0 else Z.min k len in
  let from := clamp start in
  let to := clamp finish in
  let span := Z.max (to - from) 0 in
  firstn (Z.to_nat span) (skipn (Z.to_nat from) s).

(** ASCII lower case and upper case, as the DOM and the selector engine
    apply them to names. *)
Definition asciiLower (s : jsstring) : jsstring :=
  map (fun c => if (65 <=? c) && (c <=? 90) then c + 32 else c)%N s.

Definition asciiUpper (s : jsstring) : jsstring :=
  map (fun c => if (97 <=? c) && (c <=? 122) then c - 32 else c)%N s.

End JS.

Import JS.

(* ================================================================= *)
(** ** The DOM store *)

Inductive attrNamespace : Type :=
| NoNamespace
| XMLNamespace
| XMLNSNamespace
| XLinkNamespace
| OtherAttrNamespace.

Record attr : Type := {
  attrNamespaceURI : attrNamespace;
  attrPrefix : option jsstring;
  attrLocalName : jsstring;
  attrValue : jsstring
}.

(** [attr.name]: the qualified name. *)
Definition name (a : attr) : jsstring :=
  match attrPrefix a with
  | Some p => p ++ lit ":" ++ attrLocalName a
  | None => attrLocalName a
  end.

(** An attribute as the HTML parser or [setAttribute] makes it. *)
Definition plain (n v : jsstring) : attr :=
  {| attrNamespaceURI := NoNamespace; attrPrefix := None;
     attrLocalName := n; attrValue := v |}.

Inductive namespace : Type :=
| HTMLNamespace
| SVGNamespace
| MathMLNamespace
| OtherNamespace.

(** What names an element: its namespace, prefix and local name, and its
    [is] value (a customised built-in element has one). *)
Record tag : Type := {
  namespaceURI : namespace;
  tagPrefix : option jsstring;
  tagLocalName : jsstring;
  isValue : option jsstring
}.

(** An HTML element, an SVG element, as the HTML parser makes them. *)
Definition html (n : jsstring) : tag :=
  {| namespaceURI := HTMLNamespace; tagPrefix := None; tagLocalName := n;
     isValue := None |}.

Definition svg (n : jsstring) : tag :=
  {| namespaceURI := SVGNamespace; tagPrefix := None; tagLocalName := n;
     isValue := None |}.

Definition isHTML (tg : tag) : bool :=
  match namespaceURI tg with HTMLNamespace => true | _ => false end.

(** An HTML [template] element: the one kind of element whose template
    contents exist. *)
Definition isTemplate (tg : tag) : bool :=
  isHTML tg && JS.eqb (tagLocalName tg) (lit "template").

(** The children of an element that are neither elements nor text. *)
Inductive other_kind : Type :=
| CDATASection
| ProcessingInstruction (target : jsstring)
| Comment.

#[local] Unset Elimination Schemes.
Inductive node : Type :=
| Element (nid : nat) (tg : tag) (attributes : list attr)
          (childNodes : list node) (content : list node)
| Text (nid : nat) (data : jsstring)
| Other (nid : nat) (kind : other_kind) (data : jsstring).
#[local] Set Elimination Schemes.

Definition nid (n : node) : nat :=
  match n with Element i _ _ _ _ | Text i _ | Other i _ _ => i end.

Definition nodeType (n : node) : nat :=
  match n with
  | Element _ _ _ _ _ => 1
  | Text _ _ => 3
  | Other _ CDATASection _ => 4
  | Other _ (ProcessingInstruction _) _ => 7
  | Other _ Comment _ => 8
  end.

Definition nodeValue (n : node) : jsstring :=
  match n with
  | Element _ _ _ _ _ => []
  | Text _ v | Other _ _ v => v
  end.

Definition childNodes (n : node) : list node :=
  match n with Element _ _ _ cs _ => cs | _ => [] end.

Definition attributes (n : node) : list attr :=
  match n with Element _ _ a _ _ => a | _ => [] end.

(** The nodes of the template contents ([template.content.childNodes]). *)
Definition contentNodes (n : node) : list node :=
  match n with Element _ _ _ _ ct => ct | _ => [] end.

(** The node and its descendants, in document order: what a walk over
    [childNodes] reaches. *)
Fixpoint subtree (n : node) : list node :=
  n :: match n with
       | Element _ _ _ cs _ => flat_map subtree cs
       | _ => []
       end.

Definition descendants (n : node) : list node := flat_map subtree (childNodes n).

(** Every node the tree is made of: the descendants and, at any depth,
    the nodes of template contents. *)
Fixpoint nodes (n : node) : list node :=
  n :: match n with
       | Element _ _ _ cs ct => flat_map nodes cs ++ flat_map nodes ct
       | _ => []
       end.

Definition ids (n : node) : list nat := map nid (nodes n).

Section FirstSome.
Context {A B : Type} (f : A -> option B).

Fixpoint first_some (l : list A) : option B :=
  match l with
  | [] => None
  | x :: l' => match f x with Some r => Some r | None => first_some l' end
  end.
End FirstSome.

(** The first node of identity [i] in the tree. *)
Fixpoint find_node (i : nat) (n : node) : option node :=
  if nid n =? i then Some n
  else match n with
       | Element _ _ _ cs ct =>
           match first_some (find_node i) cs with
           | Some r => Some r
           | None => first_some (find_node i) ct
           end
       | _ => None
       end.

(** The page: the live tree under [document.body], and the trees that are
    attached to no document but that the running script still holds. *)
Record dom : Type := { document_body : node; orphans : list node }.

Definition roots (d : dom) : list node := document_body d :: orphans d.

Definition dom_ids (d : dom) : list nat := flat_map ids (roots d).

Definition deref (ref : nat) (d : dom) : option node :=
  first_some (find_node ref) (roots d).

(** An identity no node of the page has. *)
Definition fresh (d : dom) : nat := S (list_max (dom_ids d)).

(** The copy of a tree with the identities [base + _]. *)
Fixpoint relabel (base : nat) (n : node) : node :=
  match n with
  | Element i tg a cs ct =>
      Element (base + i) tg a (map (relabel base) cs) (map (relabel base) ct)
  | Text i v => Text (base + i) v
  | Other i k v => Other (base + i) k v
  end.

(** [src.cloneNode(deep)]: a copy made of new nodes, attached nowhere;
    a deep copy has copies of the children and of the template contents.
    The result is the page and the reference to the copy. *)
Definition cloneNode (src : node) (deep : bool) (d : dom) : dom * nat :=
  let shape :=
    match src with
    | Element i tg a cs ct =>
        Element i tg a (if deep then cs else []) (if deep then ct else [])
    | _ => src
    end in
  let copy := relabel (fresh d) shape in
  ({| document_body := document_body d; orphans := orphans d ++ [copy] |},
   nid copy).

(** [n] without the nodes of identity [i] below it, wherever they hang. *)
Fixpoint detach (i : nat) (n : node) : node :=
  match n with
  | Element j tg a cs ct =>
      Element j tg a
        (flat_map (fun c => if nid c =? i then [] else [detach i c]) cs)
        (flat_map (fun c => if nid c =? i then [] else [detach i c]) ct)
  | _ => n
  end.

(** [el.remove()]: the node leaves its parent's child list, wherever it
    is; a node without a parent stays where it is.  The removed subtree is
    referenced by nothing that reads it again and is dropped from the
    store. *)
Definition remove (el : nat) (d : dom) : dom :=
  {| document_body := detach el (document_body d);
     orphans := map (detach el) (orphans d) |}.

(** Whether the type selector [selector] matches the node, in an HTML
    document, as Chromium decides it: an HTML element by its local name
    against the lower-cased selector, an element of another namespace by
    the upper-cased names. *)
Definition hasTag (selector : jsstring) (n : node) : bool :=
  match n with
  | Element _ tg _ _ _ =>
      if isHTML tg then JS.eqb (tagLocalName tg) (asciiLower selector)
      else JS.eqb (asciiUpper (tagLocalName tg)) (asciiUpper selector)
  | _ => false
  end.

(** The elements the selector [tag] matches among [n] and its
    descendants. *)
Fixpoint matching (tag : jsstring) (n : node) : list nat :=
  match n with
  | Element i _ _ cs _ =>
      (if hasTag tag n then [i] else []) ++ flat_map (matching tag) cs
  | _ => []
  end.

(** [root.querySelectorAll(tag)] for a type selector: the static list of
    the matching descendants of [root], in document order.  Template
    contents are not descendants. *)
Definition querySelectorAll (root : node) (tag : jsstring) : list nat :=
  flat_map (matching tag) (childNodes root).

(** A function that rewrites the subtree under one node, run on the node
    of identity [ref] of a tree. *)
Fixpoint rewrite_at (ref : nat) (f : node -> node) (n : node) : node :=
  if nid n =? ref then f n
  else match n with
       | Element j tg a cs ct =>
           Element j tg a (map (rewrite_at ref f) cs)
                   (map (rewrite_at ref f) ct)
       | _ => n
       end.

Definition run_at (ref : nat) (f : node -> node) (d : dom) : dom :=
  {| document_body := rewrite_at ref f (document_body d);
     orphans := map (rewrite_at ref f) (orphans d) |}.

(* ================================================================= *)
(** ** HTML fragment serialisation ([innerHTML]) *)

Module Serialize.

Definition voidElements : list jsstring :=
  map lit ["area"; "base"; "basefont"; "bgsound"; "br"; "col"; "embed";
           "frame"; "hr"; "img"; "input"; "keygen"; "link"; "meta";
           "param"; "source"; "track"; "wbr"]%string.

(** Elements whose text children are written without escaping (scripting
    is enabled in the page, so [noscript] is one of them). *)
Definition rawTextElements : list jsstring :=
  map lit ["style"; "script"; "xmp"; "iframe"; "noembed"; "noframes";
           "plaintext"; "noscript"]%string.

(** Both lists name HTML elements. *)
Definition isVoid (tg : tag) : bool :=
  isHTML tg && includes voidElements (tagLocalName tg).

Definition isRawText (tg : tag) : bool :=
  isHTML tg && includes rawTextElements (tagLocalName tg).

(** Escaping as the HTML Standard has it now: [&], U+00A0, [<] and [>]
    in both modes, the double quote in attribute values. *)
Definition escape (attributeMode : bool) (s : jsstring) : jsstring :=
  flat_map (fun c =>
    if (c =? 38)%N then lit "&amp;"
    else if (c =? 160)%N then lit "&nbsp;"
    else if (c =? 60)%N then lit "&lt;"
    else if (c =? 62)%N then lit "&gt;"
    else if attributeMode && (c =? 34)%N then lit "&quot;"
    else [c]) s.

(** The local name in the HTML, SVG and MathML namespaces, the qualified
    name elsewhere. *)
Definition tagname (tg : tag) : jsstring :=
  match namespaceURI tg, tagPrefix tg with
  | OtherNamespace, Some p => p ++ lit ":" ++ tagLocalName tg
  | _, _ => tagLocalName tg
  end.

Definition serializedName (a : attr) : jsstring :=
  match attrNamespaceURI a with
  | NoNamespace => attrLocalName a
  | XMLNamespace => lit "xml:" ++ attrLocalName a
  | XMLNSNamespace =>
      if JS.eqb (attrLocalName a) (lit "xmlns") then lit "xmlns"
      else lit "xmlns:" ++ attrLocalName a
  | XLinkNamespace => lit "xlink:" ++ attrLocalName a
  | OtherAttrNamespace => name a
  end.

Definition attribute (a : attr) : jsstring :=
  lit " " ++ serializedName a ++ lit "=" ++ [34%N] ++ escape true (attrValue a)
  ++ [34%N].

Definition hasIsAttribute (attrs : list attr) : bool :=
  existsb
    (fun a => match attrNamespaceURI a with
              | NoNamespace => JS.eqb (attrLocalName a) (lit "is")
              | _ => false
              end)
    attrs.

(** The [is] value is written when the element has no [is] attribute. *)
Definition isPart (tg : tag) (attrs : list attr) : jsstring :=
  match isValue tg with
  | Some v =>
      if hasIsAttribute attrs then []
      else lit " is=" ++ [34%N] ++ escape true v ++ [34%N]
  | None => []
  end.

Fixpoint outer (rawParent : bool) (n : node) : jsstring :=
  match n with
  | Element _ tg a cs ct =>
      lit "<" ++ tagname tg ++ isPart tg a ++ flat_map attribute a ++ lit ">"
      ++ (if isVoid tg then []
          else (if isTemplate tg then flat_map (outer false) ct
                else flat_map (outer (isRawText tg)) cs)
               ++ lit "</" ++ tagname tg ++ lit ">")
  | Text _ v | Other _ CDATASection v =>
      if rawParent then v else escape false v
  | Other _ Comment v => lit "<!--" ++ v ++ lit "-->"
  | Other _ (ProcessingInstruction t) v => lit "<?" ++ t ++ lit " " ++ v ++ lit ">"
  end.

(** What the element's [innerHTML] is: for a [template] element, the
    markup of its template contents. *)
Definition inner (n : node) : jsstring :=
  match n with
  | Element _ tg _ cs ct =>
      if isVoid tg then []
      else if isTemplate tg then flat_map (outer false) ct
           else flat_map (outer (isRawText tg)) cs
  | _ => []
  end.

End Serialize.

Definition outerHTML (n : node) : jsstring := Serialize.outer false n.

(** [ref.innerHTML], read through the store. *)
Definition innerHTML (ref : nat) (d : dom) : jsstring :=
  match deref ref d with
  | Some n => Serialize.inner n
  | None => []
  end.

(* ================================================================= *)
(** ** [simplifyDOM] *)

Definition tagsToRemove : list jsstring :=
  map lit ["script"; "style"; "noscript"; "iframe"; "svg"; "link"; "meta"]%string.

Definition allowedAttributes : list jsstring :=
  map lit ["id"; "class"; "name"; "placeholder"; "aria-label"; "role";
           "type"; "href"; "title"; "alt"]%string.

(** The attribute list without the first attribute of that qualified
    name. *)
Fixpoint removeFirst (qualifiedName : jsstring) (attrs : list attr) : list attr :=
  match attrs with
  | [] => []
  | a :: rest =>
      if JS.eqb (name a) qualifiedName then rest
      else a :: removeFirst qualifiedName rest
  end.

(** [el.removeAttribute(qualifiedName)]: on an HTML element of an HTML
    document the argument is lower-cased first; then the first attribute
    whose qualified name is the argument goes. *)
Definition removeAttribute (onHTML : bool) (qualifiedName : jsstring)
           (attrs : list attr) : list attr :=
  removeFirst (if onHTML then asciiLower qualifiedName else qualifiedName)
              attrs.

(** Lines 33-35, one turn of the loop on the element's current list. *)
Definition attributeStep (onHTML : bool) (current : list attr) (a : attr)
  : list attr :=
  if negb (includes allowedAttributes (name a))
  then removeAttribute onHTML (name a) current
  else current.

(** Lines 31-36: the loop runs over a snapshot of the attribute list and
    removes from the element's own list. *)
Definition cleanAttributes (onHTML : bool) (attrs : list attr) : list attr :=
  fold_left (attributeStep onHTML) attrs attrs.

(** Lines 29-56.  [cleanElement] changes nothing outside the subtree of
    [el], so it is the function from that subtree to what is left of it.
    The sibling walk reads [nextSibling] before it removes the current
    child: every child of [el] is visited once, in order, and is either
    cleaned in place, kept, or removed.  The walk goes through
    [firstChild] and [nextSibling]: template contents are not on it. *)
Fixpoint cleanElement (el : node) : node :=
  match el with
  | Element i tg attrs cs ct =>
      Element i tg (cleanAttributes (isHTML tg) attrs)
        (flat_map
           (fun child =>
              if nodeType child =? 1 then [cleanElement child]
              else if nodeType child =? 3 then
                if negb (truthy (trim (nodeValue child))) then [] else [child]
              else [])
           cs)
        ct
  | _ => el
  end.

(** Lines 21-24 for one tag. *)
Definition removeTag (clone : nat) (d : dom) (tag : jsstring) : dom :=
  match deref clone d with
  | Some root =>
      let elements := querySelectorAll root tag in
      fold_left (fun d' el => remove el d') elements d
  | None => d
  end.

(** The body of [simplifyDOM] up to the [return]: the page it leaves and
    the reference held by [clone]. *)
Definition simplifyDOM_clone (d : dom) : dom * nat :=
  let (d1, clone) := cloneNode (document_body d) true d in
  let d2 := fold_left (removeTag clone) tagsToRemove d1 in
  let d3 := run_at clone cleanElement d2 in
  (d3, clone).

Definition simplifyDOM (d : dom) : dom * jsstring :=
  let (d3, clone) := simplifyDOM_clone d in
  (d3, innerHTML clone d3).

(** The clone as [simplifyDOM] leaves it, read through the store. *)
Definition reduced (d : dom) : option node :=
  let (d3, clone) := simplifyDOM_clone d in deref clone d3.

(** The same steps as functions of the clone's tree alone. *)
Definition eliminateTag (t : node) (tag : jsstring) : node :=
  fold_left (fun t' el => detach el t') (querySelectorAll t tag) t.

Definition eliminate (t : node) : node := fold_left eliminateTag tagsToRemove t.

Definition reduceTree (t : node) : node := cleanElement (eliminate t).

Definition allowed (a : attr) : bool := includes allowedAttributes (name a).

(** The store with one more orphan [t] next to the page [b], [os]. *)
Definition with_clone (b : node) (os : list node) (t : node) : dom :=
  {| document_body := b; orphans := os ++ [t] |}.

(** No identity of [t] is used by the page [b], [os]. *)
Definition apart (b : node) (os : list node) (t : node) : Prop :=
  forall i, In i (ids t) ->
            ~ In i (dom_ids {| document_body := b; orphans := os |}).

(* ================================================================= *)
(** ** What the reduction is checked against *)

(** An element whose local name is on the removal list. *)
Definition isExcluded (n : node) : bool :=
  match n with
  | Element _ tg _ _ _ => includes tagsToRemove (tagLocalName tg)
  | _ => false
  end.

(** An element that one of the selectors of the removal list matches. *)
Definition isRemoved (n : node) : bool :=
  existsb (fun tag => hasTag tag n) tagsToRemove.

(** Same node, same kind, matched by the same selectors; the subtrees may
    differ. *)
Definition alike (x y : node) : Prop :=
  nid x = nid y /\ nodeType x = nodeType y
  /\ forall tag, hasTag tag x = hasTag tag y.

(** A text node whose trimmed value is empty. *)
Definition isBlankText (n : node) : bool :=
  (nodeType n =? 3) && negb (truthy (trim (nodeValue n))).

(** The text nodes below [n], in document order. *)
Definition textNodes (n : node) : list node :=
  filter (fun x => nodeType x =? 3) (descendants n).

(** A tree without the identities of its nodes: two trees that differ
    only in which node objects they are made of have the same image. *)
Fixpoint anonymous (n : node) : node :=
  match n with
  | Element _ tg a cs ct => Element 0 tg a (map anonymous cs) (map anonymous ct)
  | Text _ v => Text 0 v
  | Other _ k v => Other 0 k v
  end.

(** [document.body] is an HTML [body] or [frameset] element. *)
Definition isBodyTag (tg : tag) : bool :=
  isHTML tg
  && (JS.eqb (tagLocalName tg) (lit "body")
      || JS.eqb (tagLocalName tg) (lit "frameset")).

(** The attribute names of an HTML element are in ASCII lower case, as
    the HTML parser and [setAttribute] leave them; an element of another
    namespace is not asked anything. *)
Definition lowerCaseNames (n : node) : bool :=
  match n with
  | Element _ tg a _ _ =>
      negb (isHTML tg)
      || forallb (fun x => JS.eqb (asciiLower (name x)) (name x)) a
  | _ => true
  end.

(* ================================================================= *)
(** ** The host pipeline: [getElementSelector] *)

Inductive error : Type := JsError (message : jsstring).

(** How a statement or a call ends. *)
Inductive result (A : Type) : Type :=
| Return (a : A)
| Throw (e : error).
Arguments Return {A} a.
Arguments Throw {A} e.

(** The texts the source writes to the console, by the line that writes
    them. *)
Inductive message : Type :=
| MsgLaunching (url : jsstring)                   (* line 66 *)
| MsgExtracting                                   (* line 77 *)
| MsgCallingModel                                 (* line 99 *)
| MsgSelector (selector : jsstring)               (* line 109 *)
| MsgFound (count : nat)                          (* line 114 *)
| MsgNotFound (selector : jsstring)               (* line 118 *)
| MsgFailed (e : error)                           (* line 124 *)
| MsgResult (selector : option jsstring).         (* line 137 *)

Inductive event : Type :=
| ConsoleLog (m : message)
| ConsoleWarn (m : message)
| ConsoleError (m : message)
| Launch
| NewPage
| Goto (url : jsstring)
| WaitForTimeout (ms : N)
| Evaluate
| ChatCompletion (prompt : jsstring)
| LocatorQuery (selector : jsstring)
| Highlight (el : nat)
| BrowserClose.

(** The collaborators of the pipeline.  [goto] gives the page a URL loads
    to; [chat] the content of the model's first choice for a prompt, as
    the call of lines 102-108 ends, whatever the client did to get there;
    [locator] the elements of the live tree a selector matches, in
    document order.  Each of them can throw. *)
Record host : Type := {
  goto : jsstring -> result dom;
  chat : jsstring -> result jsstring;
  locator : jsstring -> node -> result (list nat)
}.

(** A computation: the events it emits, in order, and how it ends. *)
Definition M (A : Type) : Type := (list event * result A)%type.

Definition ret {A : Type} (a : A) : M A := ([], Return a).

Definition throw {A : Type} (e : error) : M A := ([], Throw e).

Definition bind {A B : Type} (m : M A) (f : A -> M B) : M B :=
  match m with
  | (t, Return a) => let (t', r) := f a in (t ++ t', r)
  | (t, Throw e) => (t, Throw e)
  end.

Definition emit (e : event) : M unit := ([e], Return tt).

(** An awaited call of a collaborator: the event, then its outcome. *)
Definition call {A : Type} (e : event) (r : result A) : M A := ([e], r).

(** [try { body } catch (error) { handler } finally { final }]. *)
Definition try_catch_finally {A : Type}
           (body : M A) (handler : error -> M A) (final : M unit) : M A :=
  let (t, r) := body in
  let (t', r') := match r with
                  | Return a => ([], Return a)
                  | Throw e => handler e
                  end in
  let (t'', rf) := final in
  (t ++ t' ++ t'',
   match rf with
   | Return _ => r'
   | Throw e => Throw e
   end).

Declare Scope pipeline_scope.
Delimit Scope pipeline_scope with pipeline.
Notation "x <- m ;; k" := (bind m (fun x => k))
  (at level 61, m at next level, right associativity) : pipeline_scope.
Notation "m ;; k" := (bind m (fun _ => k))
  (at level 61, right associativity) : pipeline_scope.

(** The events of a run up to the check of the selector. *)
Definition eventsBeforeVerification (url p selector : jsstring) : list event :=
  [ ConsoleLog (MsgLaunching url); Launch; NewPage; Goto url;
    WaitForTimeout 2000%N; ConsoleLog MsgExtracting; Evaluate;
    ConsoleLog MsgCallingModel; ChatCompletion p;
    ConsoleLog (MsgSelector selector) ].

(** Line 82. *)
Definition truncatedHTML (simplifiedHTML : jsstring) : jsstring :=
  slice simplifiedHTML 0 15000.

(** Lines 85-97: the template literal, line by line. *)
Definition prompt (description html : jsstring) : jsstring :=
  let indent := lit "        " in
  [10%N]
  ++ concat
       (map (fun l => indent ++ l ++ [10%N])
          [ lit "You are a QA automation expert. I will provide you with a simplified HTML snippet of a webpage.";
            [];
            lit "Your task is to find the CSS Selector for the element described as: "
              ++ [34%N] ++ description ++ [34%N] ++ lit ".";
            [];
            lit "Rules:";
            lit "1. Return ONLY the CSS selector string. No markdown, no explanations.";
            lit "2. Prefer 'id' if available, otherwise use a unique combination of classes or attributes.";
            lit "3. Make the selector robust.";
            [];
            lit "HTML Snippet:";
            html ])
  ++ indent.

Local Open Scope pipeline_scope.

(** Lines 112-119: the check of the selector against the live tree. *)
Definition verifySelector (h : host) (live : node) (selector : jsstring)
  : M unit :=
  matches <- call (LocatorQuery selector) (locator h selector live) ;;
  let count := length matches in
  if 0 <? count then
    emit (ConsoleLog (MsgFound count)) ;;
    first <- call (LocatorQuery selector) (locator h selector live) ;;
    match first with
    | el :: _ => emit (Highlight el)
    | [] => ret tt
    end ;;
    emit (WaitForTimeout 3000%N)
  else
    emit (ConsoleWarn (MsgNotFound selector)).

(** Lines 65-128 with a browser none of whose own calls throws: the runs
    in which the outcome depends on the page, the model and the selector
    only.  [getElementSelector_on] below is the same function with those
    calls able to throw. *)
Definition getElementSelector (h : host) (url description : jsstring)
  : M (option jsstring) :=
  emit (ConsoleLog (MsgLaunching url)) ;;
  emit Launch ;;
  emit NewPage ;;
  try_catch_finally
    (d <- call (Goto url) (goto h url) ;;
     emit (WaitForTimeout 2000%N) ;;
     emit (ConsoleLog MsgExtracting) ;;
     emit Evaluate ;;
     let (d', simplifiedHTML) := simplifyDOM d in
     let truncated := truncatedHTML simplifiedHTML in
     let p := prompt description truncated in
     emit (ConsoleLog MsgCallingModel) ;;
     content <- call (ChatCompletion p) (chat h p) ;;
     let selector := trim content in
     emit (ConsoleLog (MsgSelector selector)) ;;
     verifySelector h (document_body d') selector ;;
     ret (Some selector))
    (fun error => emit (ConsoleError (MsgFailed error)) ;; ret None)
    (emit BrowserClose).


Local Close Scope pipeline_scope.

(* ================================================================= *)
(** ** A small page and a small host, to run the definitions on *)

Module Demo.

(** [<body onload="x()" class="b"><div><script>x=1</script>
    <p class="a" style="color:red">Hi</p><!--c--><span>   </span>
    <svg><svg></svg><link></link></svg></div></body>], without the line
    breaks; the [svg] elements and what is below them are SVG elements. *)
Definition body : node :=
  Element 0 (html (lit "body"))
    [plain (lit "onload") (lit "x()"); plain (lit "class") (lit "b")]
    [Element 1 (html (lit "div")) []
       [Element 2 (html (lit "script")) [] [Text 3 (lit "x=1")] [];
        Element 4 (html (lit "p"))
          [plain (lit "class") (lit "a");
           plain (lit "style") (lit "color:red")]
          [Text 5 (lit "Hi")] [];
        Other 6 Comment (lit "c");
        Element 7 (html (lit "span")) [] [Text 8 (lit "   ")] [];
        Element 9 (svg (lit "svg")) []
          [Element 10 (svg (lit "svg")) [] [] [];
           Element 11 (svg (lit "link")) [] [] []] []] []] [].

Definition page : dom := {| document_body := body; orphans := [] |}.

Definition syntaxError : error :=
  JsError (lit "Unexpected token while parsing selector").

Definition isNameChar (c : N) : bool :=
  ((97 <=? c) && (c <=? 122) || (48 <=? c) && (c <=? 57))%N.

(** A selector engine for type selectors only: anything else is a
    syntax error. *)
Definition typeLocator (selector : jsstring) (live : node)
  : result (list nat) :=
  if truthy selector && forallb isNameChar selector
  then Return (matching selector live)
  else Throw syntaxError.

(** A host whose page is [page] and whose model answers [answer]. *)
Definition answering (answer : jsstring) : host :=
  {| goto := fun _ => Return page;
     chat := fun _ => Return answer;
     locator := typeLocator |}.

Definition url : jsstring := lit "https://www.baidu.com".

Definition description : jsstring := lit "The main search input box".

End Demo.

(** Pages on which the reduction leaves what it is meant to remove. *)
Module Defect.

(** [<body><template><script>x=1</script><!--c--><p onclick="f()">  </p>
    </template><p id="k">t</p></body>]: the children of the [template]
    element are its template contents. *)
Definition templateBody : node :=
  Element 0 (html (lit "body")) []
    [Element 1 (html (lit "template")) [] []
       [Element 2 (html (lit "script")) [] [Text 3 (lit "x=1")] [];
        Other 4 Comment (lit "c");
        Element 5 (html (lit "p")) [plain (lit "onclick") (lit "f()")]
          [Text 6 (lit "  ")] []];
     Element 7 (html (lit "p")) [plain (lit "id") (lit "k")]
       [Text 8 (lit "t")] []] [].

Definition templatePage : dom :=
  {| document_body := templateBody; orphans := [] |}.

(** An attribute in a namespace of its own, as [setAttributeNS] makes it. *)
Definition namespaced (n v : jsstring) : attr :=
  {| attrNamespaceURI := OtherAttrNamespace; attrPrefix := None;
     attrLocalName := n; attrValue := v |}.

(** [<body><div ID="1" id="2" id="3"></div></body>], where a script has set
    [ID] with [setAttributeNS(null, "ID", "1")] and the second [id] with
    [setAttributeNS("urn:x", "id", "3")]: three attributes that differ in
    namespace or local name. *)
Definition upperCaseBody : node :=
  Element 0 (html (lit "body")) []
    [Element 1 (html (lit "div"))
       [plain (lit "ID") (lit "1"); plain (lit "id") (lit "2");
        namespaced (lit "id") (lit "3")]
       [] []] [].

Definition upperCasePage : dom :=
  {| document_body := upperCaseBody; orphans := [] |}.

End Defect.

(* ================================================================= *)
(** ** One-pass readings of the loops *)

(** [n] without the descendants that satisfy [p], and without what is
    below them, in one walk over the child nodes. *)
Fixpoint dropIf (p : node -> bool) (n : node) : node :=
  match n with
  | Element j tg a cs ct =>
      Element j tg a (flat_map (fun c => if p c then [] else [dropIf p c]) cs)
              ct
  | _ => n
  end.

(** The nodes that hang in template contents, at any depth below [n]. *)
Fixpoint insideContents (n : node) : list node :=
  match n with
  | Element _ _ _ cs ct => flat_map insideContents cs ++ flat_map nodes ct
  | _ => []
  end.

(** Descendants of the same identity are matched by the same selectors,
    and no descendant shares its identity with a node of template
    contents: what distinct identities give. *)
Definition coherent (t : node) : Prop :=
  (forall x y, In x (descendants t) -> In y (descendants t) ->
               nid x = nid y -> forall tag, hasTag tag x = hasTag tag y)
  /\ (forall x y, In x (descendants t) -> In y (insideContents t) ->
                  nid x <> nid y).

Definition localName (n : node) : jsstring :=
  match n with Element _ tg _ _ _ => tagLocalName tg | _ => [] end.

(** The elements below [n], in document order. *)
Definition elementNodes (n : node) : list node :=
  filter (fun x => nodeType x =? 1) (descendants n).

(** A child of the body that leaves something in the markup: an element
    that no selector of the list matches, or a text that is not all white
    space. *)
Definition leavesMarkup (c : node) : bool :=
  (nodeType c =? 1) && negb (isRemoved c)
  || (nodeType c =? 3) && negb (forallb isWhiteSpace (nodeValue c)).

(** A node that is no element with an [is] value. *)
Definition withoutIsValue (x : node) : bool :=
  match x with
  | Element _ tg _ _ _ =>
      match isValue tg with None => true | Some _ => false end
  | _ => true
  end.



(* ================================================================= *)
(** ** Lines 65-128 with every call to the browser *)

(** How the calls to the browser that [host] leaves out end.  Each of
    them is awaited, and each can throw. *)
Record browser : Type := {
  launch : result unit;                           (* line 67 *)
  newPage : result unit;                          (* line 68 *)
  waitLoaded : result unit;                       (* line 74 *)
  evaluate : result unit;                         (* line 78 *)
  highlight : nat -> result unit;                 (* line 115 *)
  waitShown : result unit;                        (* line 116 *)
  close : result unit                             (* line 126 *)
}.

(** A browser none of whose calls throws. *)
Definition steady : browser :=
  {| launch := Return tt; newPage := Return tt; waitLoaded := Return tt;
     evaluate := Return tt; highlight := fun _ => Return tt;
     waitShown := Return tt; close := Return tt |}.

Local Open Scope pipeline_scope.

(** Lines 112-119. *)
Definition verifySelector_on
           (b : browser) (h : host) (live : node) (selector : jsstring)
  : M unit :=
  matches <- call (LocatorQuery selector) (locator h selector live) ;;
  let count := length matches in
  if 0 <? count then
    emit (ConsoleLog (MsgFound count)) ;;
    first <- call (LocatorQuery selector) (locator h selector live) ;;
    match first with
    | el :: _ => call (Highlight el) (highlight b el)
    | [] => ret tt
    end ;;
    call (WaitForTimeout 3000%N) (waitShown b)
  else
    emit (ConsoleWarn (MsgNotFound selector)).

(** Lines 71-121: the block of the [try]. *)
Definition attempt (b : browser) (h : host) (url description : jsstring)
  : M (option jsstring) :=
  d <- call (Goto url) (goto h url) ;;
  call (WaitForTimeout 2000%N) (waitLoaded b) ;;
  emit (ConsoleLog MsgExtracting) ;;
  call Evaluate (evaluate b) ;;
  let (d', simplifiedHTML) := simplifyDOM d in
  let truncated := truncatedHTML simplifiedHTML in
  let p := prompt description truncated in
  emit (ConsoleLog MsgCallingModel) ;;
  content <- call (ChatCompletion p) (chat h p) ;;
  let selector := trim content in
  emit (ConsoleLog (MsgSelector selector)) ;;
  verifySelector_on b h (document_body d') selector ;;
  ret (Some selector).

(** Lines 65-128.  [chromium.launch] and [browser.newPage] stand before
    the [try]: what they throw is neither caught nor followed by
    [browser.close].  What [browser.close] throws in the [finally]
    replaces the outcome of the [try] and of the [catch]. *)
Definition getElementSelector_on
           (b : browser) (h : host) (url description : jsstring)
  : M (option jsstring) :=
  emit (ConsoleLog (MsgLaunching url)) ;;
  call Launch (launch b) ;;
  call NewPage (newPage b) ;;
  try_catch_finally
    (attempt b h url description)
    (fun error => emit (ConsoleError (MsgFailed error)) ;; ret None)
    (call BrowserClose (close b)).

(** Lines 131-138 over it: the [await] rethrows, and nothing catches. *)
Definition main_on (b : browser) (h : host) : M unit :=
  let url := lit "https://www.baidu.com" in
  let target := [25628; 32034; 36755; 20837; 26694]%N in
  selector <- getElementSelector_on b h url target ;;
  emit (ConsoleLog (MsgResult selector)).

Local Close Scope pipeline_scope.

(** The events of the block of the [try]: neither the error log of the
    [catch], nor the shutdown of the [finally], nor the last log of the
    caller. *)
Definition insideTry (e : event) : bool :=
  match e with
  | ConsoleError _ | BrowserClose | ConsoleLog (MsgResult _) => false
  | _ => true
  end.

(** Browsers to run the pipeline on: one that does not start, one whose
    page is gone when the markup is asked for, one whose shutdown
    fails. *)
Definition missingBrowser : browser :=
  {| launch := Throw (JsError (lit "Executable not found"));
     newPage := Return tt; waitLoaded := Return tt; evaluate := Return tt;
     highlight := fun _ => Return tt; waitShown := Return tt;
     close := Return tt |}.

Definition crashedPage : browser :=
  {| launch := Return tt; newPage := Return tt; waitLoaded := Return tt;
     evaluate := Throw (JsError (lit "Target page has been closed"));
     highlight := fun _ => Return tt; waitShown := Return tt;
     close := Return tt |}.

Definition stuckBrowser : browser :=
  {| launch := Return tt; newPage := Return tt; waitLoaded := Return tt;
     evaluate := Return tt; highlight := fun _ => Return tt;
     waitShown := Return tt;
     close := Throw (JsError (lit "Browser has been closed")) |}.


(* ================================================================= *)
(** ** Induction on trees *)

Section NodeInduction.
Variable P : node -> Prop.
Hypothesis P_element :
  forall i tg a cs ct, Forall P cs -> Forall P ct -> P (Element i tg a cs ct).
Hypothesis P_text : forall i v, P (Text i v).
Hypothesis P_other : forall i k v, P (Other i k v).

Fixpoint node_ind (n : node) : P n :=
  match n with
  | Element i tg a cs ct =>
      P_element i tg a cs ct
        ((fix all (l : list node) : Forall P l :=
            match l with
            | [] => Forall_nil P
            | c :: l' => @Forall_cons _ P c l' (node_ind c) (all l')
            end) cs)
        ((fix all (l : list node) : Forall P l :=
            match l with
            | [] => Forall_nil P
            | c :: l' => @Forall_cons _ P c l' (node_ind c) (all l')
            end) ct)
  | Text i v => P_text i v
  | Other i k v => P_other i k v
  end.
End NodeInduction.

(* ================================================================= *)
(** ** Strings *)

Lemma eqb_eq (a b : jsstring) : JS.eqb a b = true <-> a = b.
Proof.
  revert b; induction a as [|x a IH]; intros [|y b]; simpl;
    try (split; [discriminate | discriminate]); try tauto.
  rewrite andb_true_iff, N.eqb_eq, IH.
  split; [intros [-> ->]; reflexivity | intros [= -> ->]; auto].
Qed.

Lemma eqb_refl (a : jsstring) : JS.eqb a a = true.
Proof. apply eqb_eq; reflexivity. Qed.

Lemma eqb_sym (a b : jsstring) : JS.eqb a b = JS.eqb b a.
Proof.
  destruct (JS.eqb a b) eqn:E.
  - apply eqb_eq in E; subst; symmetry; apply eqb_refl.
  - destruct (JS.eqb b a) eqn:E'; auto.
    apply eqb_eq in E'; subst; rewrite eqb_refl in E; discriminate.
Qed.

Lemma eqb_neq (a b : jsstring) : JS.eqb a b = false <-> a <> b.
Proof.
  destruct (JS.eqb a b) eqn:E.
  - apply eqb_eq in E; split; [discriminate | intros H; contradiction].
  - split; [|reflexivity].
    intros _ H; apply eqb_eq in H; congruence.
Qed.

Lemma includes_In (l : list jsstring) (x : jsstring) :
  includes l x = true <-> In x l.
Proof.
  unfold includes; rewrite existsb_exists; split.
  - intros (y & Hy & E); apply eqb_eq in E; subst; exact Hy.
  - intros H; exists x; split; [exact H | apply eqb_refl].
Qed.

Lemma slice_prefix (s : jsstring) (n : Z) :
  (0 <= n)%Z -> slice s 0 n = firstn (Z.to_nat n) s.
Proof.
  intros Hn; unfold slice.
  change (0 <? 0)%Z with false; cbv iota.
  rewrite (Z.min_l 0) by lia.
  replace (n <? 0)%Z with false by (symmetry; apply Z.ltb_ge; lia).
  rewrite Z.sub_0_r; change (skipn (Z.to_nat 0) s) with s.
  destruct (Z.min_spec n (Z.of_nat (length s))) as [[H ->]|[H ->]].
  - rewrite Z.max_l by lia; reflexivity.
  - rewrite Z.max_l by lia; rewrite Nat2Z.id.
    rewrite !firstn_all2; auto; lia.
Qed.

Lemma trim_blank (s : jsstring) :
  trim s = [] <-> forallb isWhiteSpace s = true.
Proof.
  assert (start_nil : forall u, trimStart u = [] <-> forallb isWhiteSpace u = true).
  { induction u as [|c u IH]; simpl; [tauto|].
    destruct (isWhiteSpace c); simpl; [exact IH | split; discriminate]. }
  assert (start_keeps : forall u, trimStart u <> [] ->
            forallb isWhiteSpace (rev (trimStart u)) = false).
  { induction u as [|c u IH]; simpl; [congruence|].
    destruct (isWhiteSpace c) eqn:E; [exact IH|].
    intros _; simpl.
    rewrite forallb_app; simpl; rewrite E.
    rewrite andb_false_r; reflexivity. }
  unfold trim, trimEnd; split.
  - intros H.
    apply (f_equal (@rev N)) in H; rewrite rev_involutive in H; simpl in H.
    apply start_nil in H.
    destruct (trimStart s) eqn:E; [apply start_nil; exact E|].
    rewrite <- E in H.
    rewrite start_keeps in H; [discriminate | rewrite E; discriminate].
  - intros H; apply start_nil in H; rewrite H; reflexivity.
Qed.

Lemma asciiLower_idempotent (s : jsstring) :
  asciiLower (asciiLower s) = asciiLower s.
Proof.
  unfold asciiLower; rewrite map_map; apply map_ext; intros c.
  destruct ((65 <=? c) && (c <=? 90))%N eqn:E.
  - apply andb_true_iff in E as [E1 E2].
    apply N.leb_le in E1, E2.
    replace ((65 <=? c + 32) && (c + 32 <=? 90))%N with false; [reflexivity|].
    symmetry; apply andb_false_iff; right; apply N.leb_gt; lia.
  - rewrite E; reflexivity.
Qed.

(* ================================================================= *)
(** ** The attribute loop *)

Lemma removeFirst_skip (q : jsstring) (pre rest : list attr) :
  Forall (fun a => JS.eqb (name a) q = false) pre ->
  removeFirst q (pre ++ rest) = pre ++ removeFirst q rest.
Proof.
  induction 1 as [|a pre Ha _ IH]; simpl; [reflexivity|].
  rewrite Ha, IH; reflexivity.
Qed.

Lemma cleanAttributes_loop (onHTML : bool) (rest pre : list attr) :
  (forall a, In a rest ->
             (if onHTML then asciiLower (name a) else name a) = name a) ->
  Forall (fun a => allowed a = true) pre ->
  fold_left (attributeStep onHTML) rest (pre ++ rest)
  = pre ++ filter allowed rest.
Proof.
  revert pre; induction rest as [|a rest IH]; intros pre Hlow Hpre.
  - reflexivity.
  - cbn [fold_left filter]. unfold attributeStep at 2.
    fold (allowed a); destruct (allowed a) eqn:Ea; cbn [negb].
    + change (pre ++ a :: rest) with (pre ++ [a] ++ rest).
      rewrite app_assoc, IH, <- app_assoc; [reflexivity| |].
      * intros b Hb; apply Hlow; right; exact Hb.
      * apply Forall_app; split; [exact Hpre | constructor; auto].
    + unfold removeAttribute; rewrite (Hlow a (or_introl eq_refl)).
      rewrite removeFirst_skip.
      * cbn [removeFirst]; rewrite eqb_refl; apply IH; [|exact Hpre].
        intros b Hb; apply Hlow; right; exact Hb.
      * eapply Forall_impl; [|exact Hpre].
        intros b Hb; cbv beta in Hb.
        destruct (JS.eqb (name b) (name a)) eqn:E; [|reflexivity].
        apply eqb_eq in E; unfold allowed in *; rewrite E in Hb; congruence.
Qed.

(** With names the lower-casing leaves alone, the loop is a filter. *)
Lemma cleanAttributes_filter (onHTML : bool) (attrs : list attr) :
  (forall a, In a attrs ->
             (if onHTML then asciiLower (name a) else name a) = name a) ->
  cleanAttributes onHTML attrs = filter allowed attrs.
Proof.
  intros H; exact (cleanAttributes_loop onHTML attrs [] H (Forall_nil _)).
Qed.

Lemma removeFirst_incl (q : jsstring) (attrs : list attr) :
  incl (removeFirst q attrs) attrs.
Proof.
  induction attrs as [|a attrs IH]; [apply incl_refl|].
  cbn [removeFirst]; destruct (JS.eqb (name a) q).
  - apply incl_tl, incl_refl.
  - intros x [<-|Hx]; [left; reflexivity | right; apply IH, Hx].
Qed.

Lemma cleanAttributes_incl (onHTML : bool) (attrs : list attr) :
  incl (cleanAttributes onHTML attrs) attrs.
Proof.
  unfold cleanAttributes.
  assert (H : forall snapshot current,
             incl (fold_left (attributeStep onHTML) snapshot current) current).
  { induction snapshot as [|a snapshot IH]; intros current;
      [apply incl_refl|].
    cbn [fold_left]; eapply incl_tran; [apply IH|].
    unfold attributeStep, removeAttribute.
    destruct (negb _); [apply removeFirst_incl | apply incl_refl]. }
  apply H.
Qed.

(* ================================================================= *)
(** ** Identities, lookup and the frame of the store operations *)

Lemma in_ids_child (i j : nat) (tg : tag) (a : list attr)
      (cs ct : list node) (c : node) :
  In c cs -> In i (ids c) -> In i (ids (Element j tg a cs ct)).
Proof.
  unfold ids; cbn [nodes map]; intros Hc Hi; right.
  apply in_map_iff in Hi as (x & <- & Hx).
  apply in_map, in_or_app; left; apply in_flat_map; exists c; auto.
Qed.

Lemma in_ids_content (i j : nat) (tg : tag) (a : list attr)
      (cs ct : list node) (c : node) :
  In c ct -> In i (ids c) -> In i (ids (Element j tg a cs ct)).
Proof.
  unfold ids; cbn [nodes map]; intros Hc Hi; right.
  apply in_map_iff in Hi as (x & <- & Hx).
  apply in_map, in_or_app; right; apply in_flat_map; exists c; auto.
Qed.

Lemma in_ids_element (i j : nat) (tg : tag) (a : list attr)
      (cs ct : list node) :
  In i (ids (Element j tg a cs ct)) ->
  i = j \/ exists c, In c (cs ++ ct) /\ In i (ids c).
Proof.
  unfold ids; cbn [nodes map]; intros [<-|Hi]; [left; reflexivity|].
  right; apply in_map_iff in Hi as (x & <- & Hx).
  apply in_app_or in Hx as [Hx|Hx];
    apply in_flat_map in Hx as (c & Hc & Hx); exists c;
    (split; [apply in_or_app; auto | apply in_map, Hx]).
Qed.

Lemma nid_in_ids (n : node) : In (nid n) (ids n).
Proof. destruct n; left; reflexivity. Qed.

Lemma find_node_root (n : node) : find_node (nid n) n = Some n.
Proof. destruct n; simpl; rewrite Nat.eqb_refl; reflexivity. Qed.

Lemma first_some_none {A B : Type} (f : A -> option B) (l : list A) :
  Forall (fun x => f x = None) l -> first_some f l = None.
Proof. induction 1 as [|x l Hx _ IH]; simpl; [|rewrite Hx]; auto. Qed.

Lemma first_some_skip {A B : Type} (f : A -> option B) (l rest : list A) :
  Forall (fun x => f x = None) l -> first_some f (l ++ rest) = first_some f rest.
Proof. induction 1 as [|x l Hx _ IH]; simpl; [|rewrite Hx]; auto. Qed.

Lemma find_node_absent (i : nat) (n : node) :
  ~ In i (ids n) -> find_node i n = None.
Proof.
  induction n as [j tg a cs ct IH IHct|j v|j k v] using node_ind; intros Hi;
    simpl; destruct (Nat.eqb_spec j i) as [E|_];
    try (exfalso; apply Hi; left; exact E); try reflexivity.
  rewrite first_some_none.
  - apply first_some_none.
    rewrite Forall_forall in *; intros c Hc; apply IHct; [exact Hc|].
    intros Hin; apply Hi; eapply in_ids_content; eauto.
  - rewrite Forall_forall in *; intros c Hc; apply IH; [exact Hc|].
    intros Hin; apply Hi; eapply in_ids_child; eauto.
Qed.

Lemma keep_all (i : nat) (f : node -> node) (l : list node) :
  (forall c, In c l -> nid c <> i /\ f c = c) ->
  flat_map (fun c => if nid c =? i then [] else [f c]) l = l.
Proof.
  induction l as [|c l IH]; intros H; [reflexivity|].
  cbn [flat_map]; destruct (H c (or_introl eq_refl)) as [Hn ->].
  destruct (Nat.eqb_spec (nid c) i); [contradiction|].
  cbn [app]; rewrite IH; [reflexivity|].
  intros c' Hc'; apply H; right; exact Hc'.
Qed.

Lemma detach_absent (i : nat) (n : node) :
  ~ In i (ids n) -> detach i n = n.
Proof.
  induction n as [j tg a cs ct IH IHct|j v|j k v] using node_ind;
    intros Hi; simpl; auto.
  rewrite Forall_forall in IH, IHct.
  rewrite !keep_all; [reflexivity| |].
  - intros c Hc; split.
    + intros E; apply Hi; eapply in_ids_content;
        [exact Hc | rewrite <- E; apply nid_in_ids].
    + apply IHct; [exact Hc|].
      intros Hin; apply Hi; eapply in_ids_content; eauto.
  - intros c Hc; split.
    + intros E; apply Hi; eapply in_ids_child;
        [exact Hc | rewrite <- E; apply nid_in_ids].
    + apply IH; [exact Hc|].
      intros Hin; apply Hi; eapply in_ids_child; eauto.
Qed.

Lemma rewrite_at_absent (i : nat) (f : node -> node) (n : node) :
  ~ In i (ids n) -> rewrite_at i f n = n.
Proof.
  induction n as [j tg a cs ct IH IHct|j v|j k v] using node_ind;
    intros Hi; simpl; destruct (Nat.eqb_spec j i) as [E|_];
    try (exfalso; apply Hi; left; exact E); try reflexivity.
  rewrite Forall_forall in IH, IHct.
  f_equal.
  - rewrite <- (map_id cs) at 2; apply map_ext_in; intros c Hc.
    apply IH; [exact Hc|].
    intros Hin; apply Hi; eapply in_ids_child; eauto.
  - rewrite <- (map_id ct) at 2; apply map_ext_in; intros c Hc.
    apply IHct; [exact Hc|].
    intros Hin; apply Hi; eapply in_ids_content; eauto.
Qed.

Lemma rewrite_at_root (f : node -> node) (n : node) :
  rewrite_at (nid n) f n = f n.
Proof. destruct n; simpl; rewrite Nat.eqb_refl; reflexivity. Qed.

Lemma nid_detach (i : nat) (n : node) : nid (detach i n) = nid n.
Proof. destruct n; reflexivity. Qed.

Lemma nid_relabel (k : nat) (n : node) : nid (relabel k n) = k + nid n.
Proof. destruct n; reflexivity. Qed.

Lemma nodes_relabel (k : nat) (n : node) :
  nodes (relabel k n) = map (relabel k) (nodes n).
Proof.
  induction n as [j tg a cs ct IH IHct|j v|j i v] using node_ind;
    try reflexivity.
  cbn [relabel nodes map]; f_equal; rewrite map_app; f_equal.
  - induction IH as [|c cs Hc _ IHcs]; [reflexivity|].
    cbn [map flat_map]; rewrite map_app, Hc, IHcs; reflexivity.
  - induction IHct as [|c ct Hc _ IHcs]; [reflexivity|].
    cbn [map flat_map]; rewrite map_app, Hc, IHcs; reflexivity.
Qed.

Lemma ids_relabel (k : nat) (n : node) :
  ids (relabel k n) = map (Nat.add k) (ids n).
Proof.
  unfold ids; rewrite nodes_relabel, !map_map.
  apply map_ext; intros x; apply nid_relabel.
Qed.

Lemma ids_detach_incl (i : nat) (n : node) : incl (ids (detach i n)) (ids n).
Proof.
  induction n as [j tg a cs ct IH IHct|j v|j k v] using node_ind;
    try apply incl_refl.
  rewrite Forall_forall in IH, IHct.
  intros x Hx; cbn [detach] in Hx.
  apply in_ids_element in Hx as [->|(c' & Hc' & Hx)]; [left; reflexivity|].
  apply in_app_or in Hc' as [Hc'|Hc'];
    apply in_flat_map in Hc' as (c & Hc & Hc');
    (destruct (nid c =? i); [destruct Hc'|]); destruct Hc' as [<-|[]].
  - eapply in_ids_child; [exact Hc | apply (IH c Hc), Hx].
  - eapply in_ids_content; [exact Hc | apply (IHct c Hc), Hx].
Qed.

Lemma matching_incl (tag : jsstring) (n : node) : incl (matching tag n) (ids n).
Proof.
  induction n as [j tg a cs ct IH _|j v|j k v] using node_ind;
    try (intros x []).
  intros x Hx; cbn [matching] in Hx; apply in_app_or in Hx as [Hx|Hx].
  - destruct (hasTag tag _); [|destruct Hx].
    destruct Hx as [<-|[]]; left; reflexivity.
  - apply in_flat_map in Hx as (c & Hc & Hx).
    rewrite Forall_forall in IH.
    eapply in_ids_child; [exact Hc | apply (IH c Hc); exact Hx].
Qed.

Lemma querySelectorAll_incl (root : node) (tag : jsstring) :
  incl (querySelectorAll root tag) (ids root).
Proof.
  destruct root as [j tg a cs ct| |]; try (intros x []).
  intros x Hx; unfold querySelectorAll in Hx; simpl in Hx.
  apply in_flat_map in Hx as (c & Hc & Hx).
  eapply in_ids_child; [exact Hc | apply matching_incl in Hx; exact Hx].
Qed.

Lemma fresh_above (d : dom) (i : nat) : In i (dom_ids d) -> i < fresh d.
Proof.
  intros Hi; unfold fresh.
  pose proof (proj1 (list_max_le (dom_ids d) _) (Nat.le_refl _)) as H.
  rewrite Forall_forall in H; specialize (H i Hi); lia.
Qed.

Section CloneInStore.
(** The store while [simplifyDOM] runs: the page as it was ([b], [os])
    and one more orphan, whose identities the page does not use. *)
Variables (b : node) (os : list node).

Lemma absent_from_page (i : nat) :
  ~ In i (dom_ids {| document_body := b; orphans := os |}) ->
  ~ In i (ids b) /\ Forall (fun o => ~ In i (ids o)) os.
Proof.
  unfold dom_ids, roots; simpl; intros H; split.
  - intros Hi; apply H, in_or_app; left; exact Hi.
  - apply Forall_forall; intros o Ho Hi.
    apply H, in_or_app; right; apply in_flat_map; exists o; auto.
Qed.

Lemma deref_with_clone (t : node) :
  apart b os t -> deref (nid t) (with_clone b os t) = Some t.
Proof.
  intros Ht.
  destruct (absent_from_page _ (Ht _ (nid_in_ids t))) as [Hb Hos].
  unfold deref, roots, with_clone; simpl.
  rewrite (find_node_absent _ _ Hb), first_some_skip.
  - simpl; rewrite find_node_root; reflexivity.
  - eapply Forall_impl; [|exact Hos].
    intros o Ho; apply find_node_absent, Ho.
Qed.

Lemma remove_with_clone (el : nat) (t : node) :
  ~ In el (dom_ids {| document_body := b; orphans := os |}) ->
  remove el (with_clone b os t) = with_clone b os (detach el t).
Proof.
  intros H; destruct (absent_from_page _ H) as [Hb Hos].
  unfold remove, with_clone; simpl.
  rewrite (detach_absent _ _ Hb), map_app; simpl.
  do 2 f_equal.
  rewrite <- (map_id os) at 2; apply map_ext_in; intros o Ho.
  rewrite Forall_forall in Hos; apply detach_absent, Hos, Ho.
Qed.

Lemma run_at_with_clone (f : node -> node) (t : node) :
  apart b os t -> run_at (nid t) f (with_clone b os t) = with_clone b os (f t).
Proof.
  intros Ht.
  destruct (absent_from_page _ (Ht _ (nid_in_ids t))) as [Hb Hos].
  unfold run_at, with_clone; simpl.
  rewrite (rewrite_at_absent _ _ _ Hb), map_app; simpl.
  rewrite rewrite_at_root; do 2 f_equal.
  rewrite <- (map_id os) at 2; apply map_ext_in; intros o Ho.
  rewrite Forall_forall in Hos; apply rewrite_at_absent, Hos, Ho.
Qed.

Lemma removes_with_clone (els : list nat) (t : node) :
  (forall el, In el els ->
    ~ In el (dom_ids {| document_body := b; orphans := os |})) ->
  fold_left (fun d' el => remove el d') els (with_clone b os t)
  = with_clone b os (fold_left (fun t' el => detach el t') els t).
Proof.
  revert t; induction els as [|el els IH]; intros t H; simpl.
  - reflexivity.
  - rewrite remove_with_clone by (apply H; left; reflexivity).
    apply IH; intros el' Hel'; apply H; right; exact Hel'.
Qed.

Lemma nid_detaches (els : list nat) (t : node) :
  nid (fold_left (fun t' el => detach el t') els t) = nid t.
Proof.
  revert t; induction els as [|el els IH]; intros t; simpl; auto.
  rewrite IH; apply nid_detach.
Qed.

Lemma ids_detaches_incl (els : list nat) (t : node) :
  incl (ids (fold_left (fun t' el => detach el t') els t)) (ids t).
Proof.
  revert t; induction els as [|el els IH]; intros t; simpl.
  - apply incl_refl.
  - eapply incl_tran; [apply IH | apply ids_detach_incl].
Qed.

Lemma removeTag_with_clone (tag : jsstring) (t : node) :
  apart b os t ->
  removeTag (nid t) (with_clone b os t) tag = with_clone b os (eliminateTag t tag).
Proof.
  intros Ht; unfold removeTag.
  rewrite (deref_with_clone _ Ht).
  apply removes_with_clone.
  intros el Hel; apply Ht, (querySelectorAll_incl t tag), Hel.
Qed.

Lemma removeTags_with_clone (tags : list jsstring) (t : node) :
  apart b os t ->
  fold_left (removeTag (nid t)) tags (with_clone b os t)
  = with_clone b os (fold_left eliminateTag tags t)
    /\ nid (fold_left eliminateTag tags t) = nid t
    /\ apart b os (fold_left eliminateTag tags t).
Proof.
  revert t; induction tags as [|tag tags IH]; intros t Ht; simpl.
  - auto.
  - rewrite (removeTag_with_clone tag _ Ht).
    assert (Hn : nid (eliminateTag t tag) = nid t) by apply nid_detaches.
    assert (Ha : apart b os (eliminateTag t tag))
      by (intros i Hi; apply Ht, (ids_detaches_incl (querySelectorAll t tag) t), Hi).
    destruct (IH _ Ha) as (E1 & E2 & E3).
    rewrite <- Hn, E1, E2; auto.
Qed.
End CloneInStore.

Lemma relabel_fresh_apart (d : dom) (n : node) :
  apart (document_body d) (orphans d) (relabel (fresh d) n).
Proof.
  intros i Hi Hold.
  rewrite ids_relabel in Hi; apply in_map_iff in Hi as (j & <- & _).
  assert (H : fresh d + j < fresh d) by (apply fresh_above; destruct d; exact Hold).
  lia.
Qed.

Lemma cloneNode_deep (src : node) (d : dom) :
  cloneNode src true d
  = (with_clone (document_body d) (orphans d) (relabel (fresh d) src),
     nid (relabel (fresh d) src)).
Proof. destruct src; reflexivity. Qed.

(** Cloning keeps the identities of the store distinct. *)
Lemma cloneNode_distinct (d : dom) :
  NoDup (dom_ids d) ->
  NoDup (dom_ids (fst (cloneNode (document_body d) true d))).
Proof.
  intros Hd; rewrite cloneNode_deep; cbn [fst].
  assert (E : dom_ids (with_clone (document_body d) (orphans d)
                         (relabel (fresh d) (document_body d)))
              = dom_ids d ++ ids (relabel (fresh d) (document_body d))).
  { unfold dom_ids, roots, with_clone; cbn [document_body orphans flat_map].
    rewrite flat_map_app; cbn [flat_map].
    rewrite app_nil_r, app_assoc; reflexivity. }
  rewrite E; apply NoDup_app.
  - exact Hd.
  - rewrite ids_relabel; apply Injective_map_NoDup.
    + intros x y H; lia.
    + unfold dom_ids, roots in Hd; cbn [flat_map] in Hd.
      apply NoDup_app_remove_r in Hd; exact Hd.
  - intros i Hi Hcopy.
    apply (relabel_fresh_apart d (document_body d) i Hcopy).
    destruct d; exact Hi.
Qed.

(** What a run of [simplifyDOM] does to the store: the page keeps its
    trees, and gains one orphan, the reduced copy of [document.body]. *)
Lemma simplifyDOM_clone_store (d : dom) :
  let clone := relabel (fresh d) (document_body d) in
  simplifyDOM_clone d
  = (with_clone (document_body d) (orphans d) (reduceTree clone), nid clone).
Proof.
  intros clone; unfold simplifyDOM_clone.
  rewrite cloneNode_deep; fold clone.
  pose proof (relabel_fresh_apart d (document_body d)) as Ha; fold clone in Ha.
  destruct (removeTags_with_clone _ _ tagsToRemove _ Ha) as (E1 & E2 & E3).
  rewrite E1, <- E2, (run_at_with_clone _ _ cleanElement _ E3), E2.
  reflexivity.
Qed.

Lemma nid_cleanElement (n : node) : nid (cleanElement n) = nid n.
Proof. destruct n; reflexivity. Qed.

Lemma ids_cleanElement_incl (n : node) : incl (ids (cleanElement n)) (ids n).
Proof.
  induction n as [j tg a cs ct IH _|j v|j k v] using node_ind;
    try apply incl_refl.
  rewrite Forall_forall in IH.
  intros x Hx; cbn [cleanElement] in Hx.
  apply in_ids_element in Hx as [->|(c' & Hc' & Hx)]; [left; reflexivity|].
  apply in_app_or in Hc' as [Hc'|Hc'];
    [|eapply in_ids_content; eauto].
  apply in_flat_map in Hc' as (c & Hc & Hc').
  eapply in_ids_child; [exact Hc|].
  destruct (nodeType c =? 1).
  - destruct Hc' as [<-|[]]; apply (IH c Hc), Hx.
  - destruct (nodeType c =? 3); [|destruct Hc'].
    destruct (negb _); [destruct Hc'|].
    destruct Hc' as [<-|[]]; exact Hx.
Qed.

Lemma reduced_store (d : dom) :
  reduced d = Some (reduceTree (relabel (fresh d) (document_body d))).
Proof.
  unfold reduced; rewrite simplifyDOM_clone_store.
  set (clone := relabel (fresh d) (document_body d)).
  assert (Hn : nid clone = nid (reduceTree clone)).
  { unfold reduceTree; rewrite nid_cleanElement; unfold eliminate.
    symmetry; apply (removeTags_with_clone _ _ tagsToRemove _
                       (relabel_fresh_apart d (document_body d))). }
  rewrite Hn; apply deref_with_clone.
  intros i Hi; apply (relabel_fresh_apart d (document_body d)).
  apply ids_cleanElement_incl in Hi.
  assert (H : forall tags t, incl (ids (fold_left eliminateTag tags t)) (ids t)).
  { induction tags as [|tag tags IH]; intros t; simpl; [apply incl_refl|].
    eapply incl_tran; [apply IH | apply ids_detaches_incl]. }
  apply H in Hi; exact Hi.
Qed.

Lemma simplifyDOM_store (d : dom) :
  simplifyDOM d
  = (with_clone (document_body d) (orphans d)
       (reduceTree (relabel (fresh d) (document_body d))),
     Serialize.inner (reduceTree (relabel (fresh d) (document_body d)))).
Proof.
  pose proof (reduced_store d) as H.
  unfold simplifyDOM, reduced, innerHTML in *.
  destruct (simplifyDOM_clone d) as [d3 clone] eqn:E.
  rewrite H; f_equal.
  rewrite simplifyDOM_clone_store in E; injection E as <- _; reflexivity.
Qed.


(* ================================================================= *)
(** ** Where the nodes of a reduced tree come from *)

Lemma subtree_cons (n : node) : subtree n = n :: descendants n.
Proof. destruct n; reflexivity. Qed.

Lemma descendants_child (c : node) (cs ct : list node) (j : nat)
      (tg : tag) (a : list attr) (x : node) :
  In c cs -> In x (subtree c) -> In x (descendants (Element j tg a cs ct)).
Proof.
  intros Hc Hx; unfold descendants; simpl.
  apply in_flat_map; exists c; auto.
Qed.

Lemma alike_refl (x : node) : alike x x.
Proof. repeat split. Qed.

Lemma alike_trans (x y z : node) : alike x y -> alike y z -> alike x z.
Proof.
  intros (A1 & A2 & A3) (B1 & B2 & B3).
  split; [congruence | split; [congruence|]].
  intros tag; rewrite A3; apply B3.
Qed.

Lemma alike_detach (i : nat) (y : node) : alike (detach i y) y.
Proof. destruct y; repeat split. Qed.

Lemma alike_cleanElement (y : node) : alike (cleanElement y) y.
Proof. destruct y; repeat split. Qed.

Lemma isRemoved_alike (x y : node) : alike x y -> isRemoved x = isRemoved y.
Proof.
  intros (_ & _ & E); unfold isRemoved.
  induction tagsToRemove as [|tag tags IH]; [reflexivity|].
  cbn [existsb]; rewrite E, IH; reflexivity.
Qed.

Lemma isRemoved_hasTag (x : node) :
  isRemoved x = true ->
  exists tag, In tag tagsToRemove /\ hasTag tag x = true.
Proof. unfold isRemoved; rewrite existsb_exists; auto. Qed.

(** A local name of the removal list is matched by its own selector, in
    any namespace. *)
Lemma isExcluded_isRemoved (x : node) :
  isExcluded x = true -> isRemoved x = true.
Proof.
  destruct x as [j tg a cs ct| |]; cbn [isExcluded]; try discriminate.
  intros H; apply includes_In in H.
  unfold isRemoved; apply existsb_exists.
  exists (tagLocalName tg); split; [exact H|].
  cbn [hasTag]; destruct (isHTML tg); [|apply eqb_refl].
  apply eqb_eq.
  repeat (destruct H as [<-|H]; [reflexivity|]); destruct H.
Qed.

Section Kept.
(** A property of nodes that [detach] does not change. *)
Variable P : node -> bool.
Hypothesis P_detach : forall i y, P (detach i y) = P y.

Lemma detach_descendant (i : nat) (t x : node) :
  In x (descendants (detach i t)) ->
  nid x <> i /\ exists y, In y (descendants t) /\ x = detach i y.
Proof.
  revert x; induction t as [j tg a cs ct IH _|j v|j k v] using node_ind;
    intros x Hx; try destruct Hx.
  unfold descendants in Hx; simpl in Hx.
  apply in_flat_map in Hx as (c' & Hc' & Hx).
  apply in_flat_map in Hc' as (c & Hc & Hc').
  destruct (Nat.eqb_spec (nid c) i) as [|Hne]; [destruct Hc'|].
  destruct Hc' as [<-|[]].
  rewrite subtree_cons in Hx; destruct Hx as [<-|Hx].
  - rewrite nid_detach; split; [exact Hne|].
    exists c; split; [|reflexivity].
    eapply descendants_child; [exact Hc | rewrite subtree_cons; left; reflexivity].
  - rewrite Forall_forall in IH.
    destruct (IH c Hc x Hx) as (Hn & y & Hy & ->).
    split; [exact Hn|]; exists y; split; [|reflexivity].
    eapply descendants_child; [exact Hc | rewrite subtree_cons; right; exact Hy].
Qed.

Lemma detaches_descendant (els : list nat) (t x : node) :
  In x (descendants (fold_left (fun t' el => detach el t') els t)) ->
  ~ In (nid x) els
  /\ exists y, In y (descendants t) /\ alike x y /\ P x = P y.
Proof.
  revert t; induction els as [|el els IH]; intros t Hx; simpl in *.
  - split; [tauto|]; exists x; repeat split; exact Hx.
  - destruct (IH _ Hx) as (Hn & y' & Hy' & Hal & HP).
    destruct (detach_descendant _ _ _ Hy') as (Hne & y & Hy & ->).
    split.
    + intros [E|Hin]; [|exact (Hn Hin)].
      apply Hne; destruct Hal as (Hid & _).
      rewrite <- Hid; symmetry; exact E.
    + exists y; split; [exact Hy|]; split.
      * eapply alike_trans; [exact Hal | apply alike_detach].
      * rewrite HP; apply P_detach.
Qed.

Lemma matching_complete (tag : jsstring) (n y : node) :
  In y (subtree n) -> hasTag tag y = true -> In (nid y) (matching tag n).
Proof.
  induction n as [j tg a cs ct IH _|j v|j k v] using node_ind; intros Hy Ht;
    try (destruct Hy as [<-|[]]; discriminate).
  destruct Hy as [<-|Hy]; cbn [matching].
  - rewrite Ht; left; reflexivity.
  - apply in_or_app; right.
    apply in_flat_map in Hy as (c & Hc & Hy).
    rewrite Forall_forall in IH.
    apply in_flat_map; exists c; split; [exact Hc | apply IH; auto].
Qed.

Lemma querySelectorAll_complete (tag : jsstring) (t y : node) :
  In y (descendants t) -> hasTag tag y = true ->
  In (nid y) (querySelectorAll t tag).
Proof.
  unfold descendants, querySelectorAll; intros Hy Ht.
  apply in_flat_map in Hy as (c & Hc & Hy).
  apply in_flat_map; exists c; split; [exact Hc|].
  apply matching_complete; assumption.
Qed.

Lemma eliminateTag_descendant (t : node) (tag : jsstring) (x : node) :
  In x (descendants (eliminateTag t tag)) ->
  hasTag tag x = false
  /\ exists y, In y (descendants t) /\ alike x y /\ P x = P y.
Proof.
  intros Hx; destruct (detaches_descendant _ _ _ Hx) as (Hn & y & Hy & Hal & HP).
  split; [|exists y; auto].
  destruct (hasTag tag x) eqn:E; [|reflexivity].
  exfalso; apply Hn.
  destruct Hal as (-> & _ & Htag).
  apply querySelectorAll_complete; [exact Hy | rewrite <- Htag; exact E].
Qed.

Lemma eliminateTags_descendant (tags : list jsstring) (t x : node) :
  In x (descendants (fold_left eliminateTag tags t)) ->
  (forall tag, In tag tags -> hasTag tag x = false)
  /\ exists y, In y (descendants t) /\ alike x y /\ P x = P y.
Proof.
  revert t; induction tags as [|tag tags IH]; intros t Hx; simpl in *.
  - split; [tauto|]; exists x; repeat split; exact Hx.
  - destruct (IH _ Hx) as (Hclear & y' & Hy' & Hal & HP).
    destruct (eliminateTag_descendant _ _ _ Hy')
      as (Htag & y & Hy & Hal' & HP').
    split.
    + intros tag' [<-|Hin]; [|apply Hclear, Hin].
      destruct Hal as (_ & _ & ->); exact Htag.
    + exists y; split; [exact Hy|]; split;
        [eapply alike_trans; eassumption | congruence].
Qed.

Lemma eliminate_root (t : node) : P (eliminate t) = P t.
Proof.
  unfold eliminate.
  assert (H : forall els u, P (fold_left (fun t' el => detach el t') els u) = P u).
  { induction els as [|el els IH]; intros u; [reflexivity|].
    cbn [fold_left]; rewrite IH; apply P_detach. }
  revert t; induction tagsToRemove as [|tag tags IH]; intros t; [reflexivity|].
  cbn [fold_left]; rewrite IH; apply H.
Qed.

(** The property holds all over the tree after the removal when it held
    all over it before. *)
Lemma eliminate_keeps (t : node) :
  (forall x, In x (subtree t) -> P x = true) ->
  forall x, In x (subtree (eliminate t)) -> P x = true.
Proof.
  intros H x Hx; rewrite subtree_cons in Hx; destruct Hx as [<-|Hx].
  - rewrite eliminate_root; apply H; rewrite subtree_cons; left; reflexivity.
  - apply eliminateTags_descendant in Hx as (_ & y & Hy & _ & ->).
    apply H; rewrite subtree_cons; right; exact Hy.
Qed.
End Kept.

Lemma cleanElement_descendant (t x : node) :
  In x (descendants (cleanElement t)) ->
  exists y, In y (descendants t) /\ x = cleanElement y.
Proof.
  revert x; induction t as [j tg a cs ct IH _|j v|j k v] using node_ind;
    intros x Hx; try destruct Hx.
  unfold descendants in Hx; simpl in Hx.
  apply in_flat_map in Hx as (c' & Hc' & Hx).
  apply in_flat_map in Hc' as (c & Hc & Hc').
  assert (Hsub : In x (subtree (cleanElement c))).
  { destruct c as [cj ctg ca ccs cct|cj cv|cj ck cv]; simpl in Hc'.
    - destruct Hc' as [<-|[]]; exact Hx.
    - destruct (negb _); [destruct Hc'|].
      destruct Hc' as [<-|[]]; exact Hx.
    - destruct ck; destruct Hc'. }
  rewrite subtree_cons in Hsub; destruct Hsub as [<-|Hsub].
  - exists c; split; [|reflexivity].
    eapply descendants_child; [exact Hc | rewrite subtree_cons; left; reflexivity].
  - rewrite Forall_forall in IH.
    destruct (IH c Hc x Hsub) as (y & Hy & ->).
    exists y; split; [|reflexivity].
    eapply descendants_child; [exact Hc | rewrite subtree_cons; right; exact Hy].
Qed.

Lemma reduceTree_no_removed (t x : node) :
  In x (descendants (reduceTree t)) -> isRemoved x = false.
Proof.
  intros Hx; destruct (isRemoved x) eqn:E; [|reflexivity].
  apply isRemoved_hasTag in E as (tag & Hin & Htag).
  apply cleanElement_descendant in Hx as (y & Hy & ->).
  apply (eliminateTags_descendant (fun _ => true) (fun _ _ => eq_refl)) in Hy
    as (Hclear & _).
  destruct (alike_cleanElement y) as (_ & _ & H).
  rewrite H, (Hclear tag Hin) in Htag; discriminate.
Qed.

(* ================================================================= *)
(** ** The attribute filter and the pruner on a tree *)

Lemma lowerCaseNames_spec (i : nat) (tg : tag) (a : list attr)
      (cs ct : list node) :
  lowerCaseNames (Element i tg a cs ct) = true ->
  forall b, In b a ->
            (if isHTML tg then asciiLower (name b) else name b) = name b.
Proof.
  cbn [lowerCaseNames]; intros H b Hb.
  destruct (isHTML tg); [|reflexivity].
  cbn [negb orb] in H; rewrite forallb_forall in H.
  apply eqb_eq, H, Hb.
Qed.

Lemma lowerCaseNames_detach (i : nat) (y : node) :
  lowerCaseNames (detach i y) = lowerCaseNames y.
Proof. destruct y; reflexivity. Qed.

Lemma lowerCaseNames_relabel (k : nat) (y : node) :
  lowerCaseNames (relabel k y) = lowerCaseNames y.
Proof. destruct y; reflexivity. Qed.

Lemma lowerCaseNames_filter (i : nat) (tg : tag) (a : list attr)
      (cs ct cs' ct' : list node) :
  lowerCaseNames (Element i tg a cs ct) = true ->
  lowerCaseNames (Element i tg (filter allowed a) cs' ct') = true.
Proof.
  cbn [lowerCaseNames]; destruct (isHTML tg); [|reflexivity].
  cbn [negb orb]; rewrite !forallb_forall; intros H b Hb.
  apply filter_In in Hb as [Hb _]; apply H, Hb.
Qed.

Lemma cleanElement_attributes (t x : node) :
  (forall y, In y (subtree t) -> lowerCaseNames y = true) ->
  In x (subtree (cleanElement t)) ->
  Forall (fun a => In (name a) allowedAttributes) (attributes x).
Proof.
  revert x; induction t as [j tg a cs ct IH _|j v|j k v] using node_ind;
    intros x Hlow Hx; try (destruct Hx as [<-|[]]; constructor).
  destruct Hx as [<-|Hx].
  - cbn [cleanElement attributes].
    rewrite cleanAttributes_filter.
    + apply Forall_forall; intros b Hb.
      apply filter_In in Hb as [_ Hb]; apply includes_In; exact Hb.
    + apply (lowerCaseNames_spec j tg a cs ct).
      apply Hlow; left; reflexivity.
  - apply in_flat_map in Hx as (c' & Hc' & Hx).
    apply in_flat_map in Hc' as (c & Hc & Hc').
    rewrite Forall_forall in IH.
    assert (Hlowc : forall y, In y (subtree c) -> lowerCaseNames y = true).
    { intros y Hy; apply Hlow; right; apply in_flat_map; exists c; auto. }
    destruct c as [cj ctg ca ccs cct|cj cv|cj ck cv]; simpl in Hc'.
    + destruct Hc' as [<-|[]]; apply (IH _ Hc); assumption.
    + destruct (negb _); [destruct Hc'|].
      destruct Hc' as [<-|[]]; destruct Hx as [<-|[]]; constructor.
    + destruct ck; destruct Hc'.
Qed.

Lemma cleanElement_kinds (t x : node) :
  In x (descendants (cleanElement t)) ->
  (nodeType x = 1 \/ nodeType x = 3) /\ isBlankText x = false.
Proof.
  revert x; induction t as [j tg a cs ct IH _|j v|j k v] using node_ind;
    intros x Hx; try destruct Hx.
  unfold descendants in Hx; simpl in Hx.
  apply in_flat_map in Hx as (c' & Hc' & Hx).
  apply in_flat_map in Hc' as (c & Hc & Hc').
  rewrite Forall_forall in IH.
  destruct c as [cj ctg ca ccs cct|cj cv|cj ck cv]; simpl in Hc'.
  - destruct Hc' as [<-|[]].
    rewrite subtree_cons in Hx; destruct Hx as [<-|Hx]; [auto|].
    apply (IH _ Hc), Hx.
  - destruct (negb (truthy (trim cv))) eqn:E; [destruct Hc'|].
    destruct Hc' as [<-|[]]; destruct Hx as [<-|[]].
    unfold isBlankText; simpl; rewrite E; auto.
  - destruct ck; destruct Hc'.
Qed.

Lemma cleanElement_textNodes (t : node) :
  textNodes (cleanElement t)
  = filter (fun x => negb (isBlankText x)) (textNodes t).
Proof.
  induction t as [j tg a cs ct IH _|j v|j k v] using node_ind;
    try reflexivity.
  unfold textNodes, descendants; cbn [cleanElement childNodes].
  induction IH as [|c cs Hc _ IHcs]; [reflexivity|].
  cbn [flat_map]; rewrite flat_map_app, !filter_app, IHcs; f_equal.
  destruct c as [cj ctg ca ccs cct|cj cv|cj ck cv].
  - change (nodeType (Element cj ctg ca ccs cct) =? 1) with true; cbv iota.
    cbn [flat_map]; rewrite app_nil_r, !subtree_cons.
    cbn [filter nodeType Nat.eqb cleanElement].
    exact Hc.
  - unfold isBlankText; simpl.
    destruct (negb (truthy (trim cv))); reflexivity.
  - destruct ck; reflexivity.
Qed.

Lemma filter_allowed_twice (a : list attr) :
  filter allowed (filter allowed a) = filter allowed a.
Proof.
  induction a as [|b a IHa]; simpl; [reflexivity|].
  destruct (allowed b) eqn:E; simpl; rewrite ?E, IHa; reflexivity.
Qed.

Lemma cleanElement_idempotent (t : node) :
  (forall y, In y (subtree t) -> lowerCaseNames y = true) ->
  cleanElement (cleanElement t) = cleanElement t.
Proof.
  induction t as [j tg a cs ct IH _|j v|j k v] using node_ind;
    intros Hlow; try reflexivity.
  pose proof (lowerCaseNames_spec j tg a cs ct
                (Hlow _ (or_introl eq_refl))) as Ha.
  cbn [cleanElement]; f_equal.
  - rewrite (cleanAttributes_filter _ a Ha).
    rewrite cleanAttributes_filter; [apply filter_allowed_twice|].
    intros b Hb; apply filter_In in Hb as [Hb _]; apply Ha, Hb.
  - assert (Hcs : forall c, In c cs ->
                    forall y, In y (subtree c) -> lowerCaseNames y = true).
    { intros c Hc y Hy; apply Hlow; right; apply in_flat_map; exists c; auto. }
    clear Hlow Ha; induction IH as [|c cs Hc _ IHcs]; [reflexivity|].
    cbn [flat_map]; rewrite flat_map_app, IHcs;
      [|intros c' Hc'; apply Hcs; right; exact Hc'].
    f_equal.
    destruct c as [cj ctg ca ccs cct|cj cv|cj ck cv].
    + change (nodeType (Element cj ctg ca ccs cct) =? 1) with true; cbv iota.
      cbn [flat_map]; rewrite app_nil_r.
      change (nodeType (cleanElement (Element cj ctg ca ccs cct)) =? 1) with true.
      cbv iota; rewrite Hc; [reflexivity|].
      apply Hcs; left; reflexivity.
    + simpl; destruct (negb (truthy (trim cv))) eqn:E; simpl; rewrite ?E;
        reflexivity.
    + destruct ck; reflexivity.
Qed.

Lemma cleanElement_relabel (k : nat) (t : node) :
  cleanElement (relabel k t) = relabel k (cleanElement t).
Proof.
  induction t as [j tg a cs ct IH _|j v|j i v] using node_ind;
    try reflexivity.
  cbn [cleanElement relabel]; f_equal.
  induction IH as [|c cs Hc _ IHcs]; [reflexivity|].
  cbn [flat_map map]; rewrite map_app, IHcs; f_equal.
  destruct c as [cj ctg ca ccs cct|cj cv|cj ck cv].
  - change (nodeType (relabel k (Element cj ctg ca ccs cct)) =? 1) with true.
    change (nodeType (Element cj ctg ca ccs cct) =? 1) with true.
    cbv iota; rewrite Hc; reflexivity.
  - simpl; destruct (negb (truthy (trim cv))); reflexivity.
  - destruct ck; reflexivity.
Qed.

(** What [cleanElement] leaves of the names is lower case when they all
    were. *)
Lemma cleanElement_lowerCaseNames (t : node) :
  (forall y, In y (subtree t) -> lowerCaseNames y = true) ->
  forall x, In x (subtree (cleanElement t)) -> lowerCaseNames x = true.
Proof.
  induction t as [j tg a cs ct IH _|j v|j k v] using node_ind;
    intros Hlow x Hx; try (apply Hlow; exact Hx).
  pose proof (Hlow _ (or_introl eq_refl)) as Hroot.
  destruct Hx as [<-|Hx].
  - cbn [cleanElement].
    rewrite (cleanAttributes_filter _ a (lowerCaseNames_spec _ _ _ _ _ Hroot)).
    eapply lowerCaseNames_filter; exact Hroot.
  - apply in_flat_map in Hx as (c' & Hc' & Hx).
    apply in_flat_map in Hc' as (c & Hc & Hc').
    rewrite Forall_forall in IH.
    assert (Hlowc : forall y, In y (subtree c) -> lowerCaseNames y = true).
    { intros y Hy; apply Hlow; right; apply in_flat_map; exists c; auto. }
    destruct c as [cj ctg ca ccs cct|cj cv|cj ck cv]; simpl in Hc'.
    + destruct Hc' as [<-|[]]; apply (IH _ Hc); assumption.
    + destruct (negb _); [destruct Hc'|].
      destruct Hc' as [<-|[]]; destruct Hx as [<-|[]]; reflexivity.
    + destruct ck; destruct Hc'.
Qed.

(* ================================================================= *)
(** ** A tree that is already reduced *)

Lemma matching_sound (tag : jsstring) (n : node) (i : nat) :
  In i (matching tag n) ->
  exists y, In y (subtree n) /\ nid y = i /\ hasTag tag y = true.
Proof.
  induction n as [j tg a cs ct IH _|j v|j k v] using node_ind; intros Hi;
    try destruct Hi.
  cbn [matching] in Hi; apply in_app_or in Hi as [Hi|Hi].
  - destruct (hasTag tag (Element j tg a cs ct)) eqn:E; [|destruct Hi].
    destruct Hi as [<-|[]].
    exists (Element j tg a cs ct); repeat split;
      [left; reflexivity | exact E].
  - apply in_flat_map in Hi as (c & Hc & Hi).
    rewrite Forall_forall in IH.
    destruct (IH c Hc Hi) as (y & Hy & Hn & Ht).
    exists y; repeat split; auto.
    right; apply in_flat_map; exists c; auto.
Qed.

Lemma querySelectorAll_sound (tag : jsstring) (t : node) (i : nat) :
  In i (querySelectorAll t tag) ->
  exists y, In y (descendants t) /\ nid y = i /\ hasTag tag y = true.
Proof.
  unfold querySelectorAll, descendants; intros Hi.
  apply in_flat_map in Hi as (c & Hc & Hi).
  apply matching_sound in Hi as (y & Hy & Hn & Ht).
  exists y; repeat split; auto.
  apply in_flat_map; exists c; auto.
Qed.

Lemma not_removed_hasTag (x : node) (tag : jsstring) :
  isRemoved x = false -> In tag tagsToRemove -> hasTag tag x = false.
Proof.
  intros Hx Hin; destruct (hasTag tag x) eqn:E; [|reflexivity].
  assert (H : isRemoved x = true)
    by (apply existsb_exists; exists tag; auto).
  congruence.
Qed.

Lemma eliminate_fixed (t : node) :
  (forall x, In x (descendants t) -> isRemoved x = false) ->
  eliminate t = t.
Proof.
  intros Hclear; unfold eliminate.
  assert (H : forall tag, In tag tagsToRemove -> eliminateTag t tag = t).
  { intros tag Hin; unfold eliminateTag.
    destruct (querySelectorAll t tag) as [|i els] eqn:E; [reflexivity|].
    exfalso.
    assert (Hi : In i (querySelectorAll t tag)) by (rewrite E; left; reflexivity).
    apply querySelectorAll_sound in Hi as (y & Hy & _ & Ht).
    rewrite (not_removed_hasTag y tag) in Ht; [discriminate| |exact Hin].
    apply Hclear, Hy. }
  induction tagsToRemove as [|tag tags IH]; simpl; [reflexivity|].
  rewrite H by (left; reflexivity).
  apply IH; intros tag' Hin; apply H; right; exact Hin.
Qed.

Lemma subtree_relabel (k : nat) (t : node) :
  subtree (relabel k t) = map (relabel k) (subtree t).
Proof.
  induction t as [j tg a cs ct IH _|j v|j i v] using node_ind;
    try reflexivity.
  cbn [relabel subtree map]; f_equal.
  induction IH as [|c cs Hc _ IHcs]; [reflexivity|].
  cbn [map flat_map]; rewrite map_app, Hc, IHcs; reflexivity.
Qed.

Lemma descendants_relabel (k : nat) (t : node) :
  descendants (relabel k t) = map (relabel k) (descendants t).
Proof.
  pose proof (subtree_relabel k t) as H.
  rewrite !subtree_cons in H; cbn [map] in H; congruence.
Qed.

Lemma hasTag_relabel (k : nat) (tag : jsstring) (x : node) :
  hasTag tag (relabel k x) = hasTag tag x.
Proof. destruct x; reflexivity. Qed.

Lemma isRemoved_relabel (k : nat) (x : node) :
  isRemoved (relabel k x) = isRemoved x.
Proof.
  unfold isRemoved; induction tagsToRemove as [|tag tags IH]; [reflexivity|].
  cbn [existsb]; rewrite hasTag_relabel, IH; reflexivity.
Qed.

Lemma anonymous_relabel (k : nat) (t : node) :
  anonymous (relabel k t) = anonymous t.
Proof.
  induction t as [j tg a cs ct IH IHct|j v|j i v] using node_ind;
    try reflexivity.
  rewrite Forall_forall in IH, IHct.
  cbn [relabel anonymous]; f_equal;
    rewrite map_map; apply map_ext_in; auto.
Qed.

Lemma outer_relabel (k : nat) (t : node) (raw : bool) :
  Serialize.outer raw (relabel k t) = Serialize.outer raw t.
Proof.
  revert raw; induction t as [j tg a cs ct IH IHct|j v|j i v] using node_ind;
    intros raw; try reflexivity.
  assert (E : forall raw' l, Forall (fun c => forall r,
                  Serialize.outer r (relabel k c) = Serialize.outer r c) l ->
              flat_map (Serialize.outer raw') (map (relabel k) l)
              = flat_map (Serialize.outer raw') l).
  { intros raw' l Hl; induction Hl as [|c l Hc _ IHl]; [reflexivity|].
    cbn [map flat_map]; rewrite Hc, IHl; reflexivity. }
  cbn [relabel Serialize.outer].
  rewrite (E false ct IHct), (E (Serialize.isRawText tg) cs IH); reflexivity.
Qed.

Lemma inner_relabel (k : nat) (t : node) :
  Serialize.inner (relabel k t) = Serialize.inner t.
Proof.
  destruct t as [j tg a cs ct| |]; try reflexivity.
  cbn [relabel Serialize.inner].
  assert (E : forall raw l,
              flat_map (Serialize.outer raw) (map (relabel k) l)
              = flat_map (Serialize.outer raw) l).
  { intros raw l; induction l as [|c l IH]; [reflexivity|].
    cbn [map flat_map]; rewrite outer_relabel, IH; reflexivity. }
  rewrite !E; reflexivity.
Qed.

(** A reduced tree, copied, is left as it is by a second reduction, when
    the attribute names of the tree it comes from are lower case. *)
Lemma reduceTree_fixed (k : nat) (t : node) :
  (forall y, In y (subtree t) -> lowerCaseNames y = true) ->
  reduceTree (relabel k (reduceTree t)) = relabel k (reduceTree t).
Proof.
  intros Hlow; unfold reduceTree at 1.
  rewrite eliminate_fixed.
  - unfold reduceTree; rewrite cleanElement_relabel, cleanElement_idempotent.
    + reflexivity.
    + apply (eliminate_keeps lowerCaseNames lowerCaseNames_detach), Hlow.
  - intros x Hx; rewrite descendants_relabel in Hx.
    apply in_map_iff in Hx as (y & <- & Hy).
    rewrite isRemoved_relabel; eapply reduceTree_no_removed; exact Hy.
Qed.

(* ================================================================= *)
(** ** The root of the clone *)

Lemma detaches_root (els : list nat) (j : nat) (cs ct : list node) :
  exists cs' ct', forall tg a,
    fold_left (fun t' el => detach el t') els (Element j tg a cs ct)
    = Element j tg a cs' ct'.
Proof.
  revert cs ct; induction els as [|el els IH]; intros cs ct.
  - exists cs, ct; reflexivity.
  - destruct (IH (flat_map (fun c => if nid c =? el then [] else [detach el c]) cs)
                 (flat_map (fun c => if nid c =? el then [] else [detach el c]) ct))
      as (cs' & ct' & H).
    exists cs', ct'; intros tg a; apply H.
Qed.

Lemma eliminateTags_root (tags : list jsstring) (j : nat) (cs ct : list node) :
  exists cs' ct', forall tg a,
    fold_left eliminateTag tags (Element j tg a cs ct) = Element j tg a cs' ct'.
Proof.
  revert cs ct; induction tags as [|tag tags IH]; intros cs ct.
  - exists cs, ct; reflexivity.
  - destruct (detaches_root (flat_map (matching tag) cs) j cs ct)
      as (cs1 & ct1 & H1).
    destruct (IH cs1 ct1) as (cs' & ct' & H).
    exists cs', ct'; intros tg a; cbn [fold_left].
    unfold eliminateTag, querySelectorAll; cbn [childNodes].
    rewrite H1; apply H.
Qed.

Lemma reduceTree_root (j : nat) (cs ct : list node) :
  exists cs' ct', forall tg a,
    reduceTree (Element j tg a cs ct)
    = Element j tg (cleanAttributes (isHTML tg) a) cs' ct'.
Proof.
  destruct (eliminateTags_root tagsToRemove j cs ct) as (cs1 & ct1 & H).
  eexists; eexists; intros tg a.
  unfold reduceTree, eliminate; rewrite H; cbn [cleanElement]; reflexivity.
Qed.

Lemma body_serializes_children (tg : tag) (j : nat) (a : list attr)
      (cs ct : list node) :
  isBodyTag tg = true ->
  Serialize.inner (Element j tg a cs ct) = flat_map outerHTML cs.
Proof.
  unfold isBodyTag; intros H.
  apply andb_true_iff in H as [Hh H].
  cbn [Serialize.inner].
  unfold Serialize.isVoid, isTemplate, Serialize.isRawText; rewrite Hh.
  apply orb_true_iff in H as [H|H]; apply eqb_eq in H; rewrite H;
    reflexivity.
Qed.

(* ================================================================= *)
(** ** The tag removal as one walk *)

Lemma dropIf_ext (p q : node -> bool) (t : node) :
  (forall c, In c (descendants t) -> p c = q c) -> dropIf p t = dropIf q t.
Proof.
  induction t as [j tg a cs ct IH _|j v|j k v] using node_ind; intros H;
    try reflexivity.
  cbn [dropIf]; f_equal.
  assert (Hc : forall c, In c cs -> p c = q c /\ dropIf p c = dropIf q c).
  { intros c Hc; rewrite Forall_forall in IH; split.
    - apply H; eapply descendants_child;
        [exact Hc | rewrite subtree_cons; left; reflexivity].
    - apply (IH c Hc); intros x Hx; apply H.
      eapply descendants_child; [exact Hc | rewrite subtree_cons; right; exact Hx]. }
  clear H IH; induction cs as [|c cs IHcs]; [reflexivity|].
  cbn [flat_map].
  destruct (Hc c (or_introl eq_refl)) as [-> ->].
  rewrite IHcs; [reflexivity|].
  intros c' Hc'; apply Hc; right; exact Hc'.
Qed.

Lemma dropIf_none (p : node -> bool) (t : node) :
  (forall c, In c (descendants t) -> p c = false) -> dropIf p t = t.
Proof.
  induction t as [j tg a cs ct IH _|j v|j k v] using node_ind; intros H;
    try reflexivity.
  cbn [dropIf]; f_equal.
  assert (Hc : forall c, In c cs -> p c = false /\ dropIf p c = c).
  { intros c Hc; rewrite Forall_forall in IH; split.
    - apply H; eapply descendants_child;
        [exact Hc | rewrite subtree_cons; left; reflexivity].
    - apply (IH c Hc); intros x Hx; apply H.
      eapply descendants_child; [exact Hc | rewrite subtree_cons; right; exact Hx]. }
  clear H IH; induction cs as [|c cs IHcs]; [reflexivity|].
  cbn [flat_map].
  destruct (Hc c (or_introl eq_refl)) as [-> ->].
  cbn [app]; rewrite IHcs; [reflexivity|].
  intros c' Hc'; apply Hc; right; exact Hc'.
Qed.

Lemma alike_dropIf (p : node -> bool) (y : node) : alike (dropIf p y) y.
Proof. destruct y; repeat split. Qed.

Lemma nodes_in_ids (x n : node) : In x (nodes n) -> In (nid x) (ids n).
Proof. intros H; unfold ids; apply in_map, H. Qed.

Lemma insideContents_child (c : node) (cs ct : list node) (j : nat)
      (tg : tag) (a : list attr) (x : node) :
  In c cs -> In x (insideContents c) ->
  In x (insideContents (Element j tg a cs ct)).
Proof.
  intros Hc Hx; cbn [insideContents]; apply in_or_app; left.
  apply in_flat_map; exists c; auto.
Qed.

Lemma insideContents_content (c : node) (cs ct : list node) (j : nat)
      (tg : tag) (a : list attr) (x : node) :
  In c ct -> In x (nodes c) ->
  In x (insideContents (Element j tg a cs ct)).
Proof.
  intros Hc Hx; cbn [insideContents]; apply in_or_app; right.
  apply in_flat_map; exists c; auto.
Qed.

(** On a node that hangs in no template contents, [remove] is a walk
    over the child nodes. *)
Lemma detach_dropIf (i : nat) (t : node) :
  (forall y, In y (insideContents t) -> nid y <> i) ->
  detach i t = dropIf (fun c => nid c =? i) t.
Proof.
  induction t as [j tg a cs ct IH _|j v|j k v] using node_ind; intros H;
    try reflexivity.
  cbn [detach dropIf]; f_equal.
  - assert (Hc : forall c, In c cs -> detach i c = dropIf (fun c => nid c =? i) c).
    { intros c Hc; rewrite Forall_forall in IH; apply (IH c Hc).
      intros y Hy; apply H; eapply insideContents_child; eauto. }
    clear H IH; induction cs as [|c cs IHcs]; [reflexivity|].
    cbn [flat_map]; rewrite (Hc c (or_introl eq_refl)), IHcs; [reflexivity|].
    intros c' Hc'; apply Hc; right; exact Hc'.
  - apply keep_all; intros c Hc; split.
    + apply H; eapply insideContents_content;
        [exact Hc | destruct c; left; reflexivity].
    + apply detach_absent; intros Hin.
      unfold ids in Hin; apply in_map_iff in Hin as (y & Hy & Hin).
      apply (H y); [|exact Hy].
      eapply insideContents_content; eauto.
Qed.

Lemma insideContents_dropIf (p : node -> bool) (t : node) :
  incl (insideContents (dropIf p t)) (insideContents t).
Proof.
  induction t as [j tg a cs ct IH _|j v|j k v] using node_ind;
    try apply incl_refl.
  rewrite Forall_forall in IH.
  intros x Hx; cbn [dropIf insideContents] in Hx.
  apply in_app_or in Hx as [Hx|Hx].
  - apply in_flat_map in Hx as (c' & Hc' & Hx).
    apply in_flat_map in Hc' as (c & Hc & Hc').
    destruct (p c); [destruct Hc'|]; destruct Hc' as [<-|[]].
    eapply insideContents_child; [exact Hc | apply (IH c Hc), Hx].
  - cbn [insideContents]; apply in_or_app; right; exact Hx.
Qed.

Lemma insideContents_cleanElement (t : node) :
  incl (insideContents (cleanElement t)) (insideContents t).
Proof.
  induction t as [j tg a cs ct IH _|j v|j k v] using node_ind;
    try apply incl_refl.
  rewrite Forall_forall in IH.
  intros x Hx; cbn [cleanElement insideContents] in Hx.
  apply in_app_or in Hx as [Hx|Hx].
  - apply in_flat_map in Hx as (c' & Hc' & Hx).
    apply in_flat_map in Hc' as (c & Hc & Hc').
    eapply insideContents_child; [exact Hc|].
    destruct c as [cj ctg ca ccs cct|cj cv|cj ck cv]; simpl in Hc'.
    + destruct Hc' as [<-|[]]; apply (IH _ Hc), Hx.
    + destruct (negb _); [destruct Hc'|].
      destruct Hc' as [<-|[]]; exact Hx.
    + destruct ck; destruct Hc'.
  - cbn [insideContents]; apply in_or_app; right; exact Hx.
Qed.

Lemma dropIf_dropIf (p q : node -> bool) (t : node) :
  (forall x y, alike x y -> q x = q y) ->
  dropIf q (dropIf p t) = dropIf (fun c => p c || q c) t.
Proof.
  intros Hq.
  induction t as [j tg a cs ct IH _|j v|j k v] using node_ind;
    try reflexivity.
  cbn [dropIf]; f_equal.
  induction IH as [|c cs Hc _ IHcs]; [reflexivity|].
  cbn [flat_map]; rewrite flat_map_app, IHcs; f_equal.
  destruct (p c); cbn [orb flat_map]; [reflexivity|].
  rewrite (Hq _ _ (alike_dropIf p c)).
  destruct (q c); [reflexivity|].
  rewrite Hc; reflexivity.
Qed.

Lemma detaches_dropIf (els : list nat) (t : node) :
  (forall el y, In el els -> In y (insideContents t) -> nid y <> el) ->
  fold_left (fun t' el => detach el t') els t
  = dropIf (fun c => existsb (Nat.eqb (nid c)) els) t.
Proof.
  revert t; induction els as [|el els IH]; intros t H; cbn [fold_left].
  - symmetry; apply dropIf_none; reflexivity.
  - rewrite detach_dropIf by (intros y Hy; apply (H el y); [left|]; auto).
    rewrite IH.
    + rewrite dropIf_dropIf; [reflexivity|].
      intros x y (E & _); rewrite E; reflexivity.
    + intros el' y Hel' Hy; apply (H el' y); [right; exact Hel'|].
      apply (insideContents_dropIf (fun c => nid c =? el) t), Hy.
Qed.

Lemma eliminateTag_dropIf (t : node) (tag : jsstring) :
  coherent t -> eliminateTag t tag = dropIf (hasTag tag) t.
Proof.
  intros [Hco Hsep]; unfold eliminateTag; rewrite detaches_dropIf.
  - apply dropIf_ext; intros c Hc.
    destruct (hasTag tag c) eqn:Ht.
    + apply existsb_exists; exists (nid c); split; [|apply Nat.eqb_refl].
      apply querySelectorAll_complete; assumption.
    + destruct (existsb _ _) eqn:E; [|reflexivity].
      apply existsb_exists in E as (i & Hi & E).
      apply Nat.eqb_eq in E.
      apply querySelectorAll_sound in Hi as (y & Hy & Hn & Hty).
      rewrite (Hco c y Hc Hy (eq_trans E (eq_sym Hn)) tag) in Ht; congruence.
  - intros el y Hel Hy E.
    apply querySelectorAll_sound in Hel as (x & Hx & Hn & _).
    apply (Hsep x y Hx Hy); congruence.
Qed.

Lemma dropIf_descendant (p : node -> bool) (t x : node) :
  In x (descendants (dropIf p t)) ->
  exists y, In y (descendants t) /\ x = dropIf p y.
Proof.
  revert x; induction t as [j tg a cs ct IH _|j v|j k v] using node_ind;
    intros x Hx; try destruct Hx.
  unfold descendants in Hx; cbn [dropIf childNodes] in Hx.
  apply in_flat_map in Hx as (c' & Hc' & Hx).
  apply in_flat_map in Hc' as (c & Hc & Hc').
  destruct (p c); [destruct Hc'|].
  destruct Hc' as [<-|[]].
  rewrite subtree_cons in Hx; destruct Hx as [<-|Hx].
  - exists c; split; [|reflexivity].
    eapply descendants_child; [exact Hc | rewrite subtree_cons; left; reflexivity].
  - rewrite Forall_forall in IH.
    destruct (IH c Hc x Hx) as (y & Hy & ->).
    exists y; split; [|reflexivity].
    eapply descendants_child; [exact Hc | rewrite subtree_cons; right; exact Hy].
Qed.

Lemma coherent_dropIf (p : node -> bool) (t : node) :
  coherent t -> coherent (dropIf p t).
Proof.
  intros [Hco Hsep]; split.
  - intros x y Hx Hy E tag.
    apply dropIf_descendant in Hx as (x0 & Hx0 & ->).
    apply dropIf_descendant in Hy as (y0 & Hy0 & ->).
    destruct (alike_dropIf p x0) as (Ex & _ & ->).
    destruct (alike_dropIf p y0) as (Ey & _ & ->).
    apply Hco; congruence.
  - intros x y Hx Hy.
    apply dropIf_descendant in Hx as (x0 & Hx0 & ->).
    apply insideContents_dropIf in Hy.
    destruct (alike_dropIf p x0) as (-> & _).
    apply Hsep; assumption.
Qed.

Lemma coherent_cleanElement (t : node) : coherent t -> coherent (cleanElement t).
Proof.
  intros [Hco Hsep]; split.
  - intros x y Hx Hy E tag.
    apply cleanElement_descendant in Hx as (x0 & Hx0 & ->).
    apply cleanElement_descendant in Hy as (y0 & Hy0 & ->).
    destruct (alike_cleanElement x0) as (Ex & _ & ->).
    destruct (alike_cleanElement y0) as (Ey & _ & ->).
    apply Hco; congruence.
  - intros x y Hx Hy.
    apply cleanElement_descendant in Hx as (x0 & Hx0 & ->).
    apply insideContents_cleanElement in Hy.
    destruct (alike_cleanElement x0) as (-> & _).
    apply Hsep; assumption.
Qed.

Lemma eliminateTags_dropIf (tags : list jsstring) (t : node) :
  coherent t ->
  fold_left eliminateTag tags t
  = dropIf (fun c => existsb (fun tag => hasTag tag c) tags) t.
Proof.
  revert t; induction tags as [|tag tags IH]; intros t Hco; cbn [fold_left].
  - symmetry; apply dropIf_none; reflexivity.
  - rewrite (eliminateTag_dropIf t tag Hco).
    rewrite IH by (apply coherent_dropIf; exact Hco).
    rewrite dropIf_dropIf; [reflexivity|].
    intros x y (_ & _ & E); clear - E.
    induction tags as [|tag' tags' IHt]; [reflexivity|].
    cbn [existsb]; rewrite E, IHt; reflexivity.
Qed.

Lemma eliminate_dropIf (t : node) :
  coherent t -> eliminate t = dropIf isRemoved t.
Proof. intros Hco; apply (eliminateTags_dropIf _ _ Hco). Qed.

Lemma NoDup_map_eq {A B : Type} (f : A -> B) (l : list A) (x y : A) :
  NoDup (map f l) -> In x l -> In y l -> f x = f y -> x = y.
Proof.
  induction l as [|a l IH]; intros Hnd Hx Hy E; [destruct Hx|].
  cbn [map] in Hnd; inversion Hnd as [|? ? Hnot Hnd']; subst.
  destruct Hx as [->|Hx], Hy as [->|Hy]; auto.
  - exfalso; apply Hnot; rewrite E; apply in_map, Hy.
  - exfalso; apply Hnot; rewrite <- E; apply in_map, Hx.
Qed.

Lemma NoDup_map_app {A B : Type} (f : A -> B) (l l' : list A) (x y : A) :
  NoDup (map f (l ++ l')) -> In x l -> In y l' -> f x <> f y.
Proof.
  rewrite map_app; intros Hnd Hx Hy E.
  induction l as [|a l IH]; [destruct Hx|].
  cbn [map app] in Hnd; inversion Hnd as [|? ? Hnot Hnd']; subst.
  destruct Hx as [->|Hx]; [|apply IH; assumption].
  apply Hnot, in_or_app; right; rewrite E; apply in_map, Hy.
Qed.

Lemma flat_map_split {A B : Type} (f g h : A -> list B) (l : list A) :
  (forall x, In x l -> Permutation (f x) (g x ++ h x)) ->
  Permutation (flat_map f l) (flat_map g l ++ flat_map h l).
Proof.
  induction l as [|x l IH]; intros H; [constructor|].
  cbn [flat_map].
  rewrite (H x (or_introl eq_refl)), IH
    by (intros y Hy; apply H; right; exact Hy).
  rewrite <- !app_assoc; apply Permutation_app_head.
  rewrite !app_assoc; apply Permutation_app_tail, Permutation_app_comm.
Qed.

(** The nodes of a tree are its descendants and the nodes of template
    contents. *)
Lemma nodes_split (t : node) :
  Permutation (nodes t) (subtree t ++ insideContents t).
Proof.
  induction t as [j tg a cs ct IH _|j v|j k v] using node_ind;
    try apply Permutation_refl.
  cbn [nodes subtree insideContents app]; constructor.
  rewrite app_assoc; apply Permutation_app_tail.
  apply flat_map_split; rewrite Forall_forall in IH; exact IH.
Qed.

Lemma NoDup_coherent (t : node) : NoDup (ids t) -> coherent t.
Proof.
  unfold ids; intros Hnd.
  apply (Permutation_NoDup (Permutation_map nid (nodes_split t))) in Hnd.
  split.
  - intros x y Hx Hy E tag.
    rewrite (NoDup_map_eq nid (subtree t ++ insideContents t) x y Hnd);
      [reflexivity| | |exact E];
      apply in_or_app; left; rewrite subtree_cons; right; assumption.
  - intros x y Hx Hy.
    apply (NoDup_map_app nid _ _ x y Hnd); [|exact Hy].
    rewrite subtree_cons; right; exact Hx.
Qed.

Lemma dropIf_relabel (k : nat) (p : node -> bool) (t : node) :
  (forall c, p (relabel k c) = p c) ->
  dropIf p (relabel k t) = relabel k (dropIf p t).
Proof.
  intros Hp.
  induction t as [j tg a cs ct IH _|j v|j i v] using node_ind;
    try reflexivity.
  cbn [dropIf relabel]; f_equal.
  induction IH as [|c cs Hc _ IHcs]; [reflexivity|].
  cbn [flat_map map]; rewrite map_app, IHcs, Hp; f_equal.
  destruct (p c); [reflexivity|].
  cbn [map]; rewrite Hc; reflexivity.
Qed.

Lemma cleanElement_dropIf (p : node -> bool) (t : node) :
  (forall x y, alike x y -> p x = p y) ->
  (forall c, nodeType c <> 1 -> p c = false) ->
  cleanElement (dropIf p t) = dropIf p (cleanElement t).
Proof.
  intros Hp Hel.
  induction t as [j tg a cs ct IH _|j v|j k v] using node_ind;
    try reflexivity.
  cbn [dropIf cleanElement]; f_equal.
  induction IH as [|c cs Hc _ IHcs]; [reflexivity|].
  cbn [flat_map]; rewrite !flat_map_app, IHcs; f_equal.
  destruct c as [cj ctg ca ccs cct|cj cv|cj ck cv].
  - change (nodeType (Element cj ctg ca ccs cct) =? 1) with true; cbv iota.
    cbn [flat_map]; rewrite app_nil_r.
    rewrite (Hp _ _ (alike_cleanElement (Element cj ctg ca ccs cct))).
    destruct (p (Element cj ctg ca ccs cct)); [reflexivity|].
    cbn [flat_map]; rewrite app_nil_r.
    change (nodeType (dropIf p (Element cj ctg ca ccs cct)) =? 1) with true.
    cbv iota; rewrite Hc; reflexivity.
  - rewrite (Hel (Text cj cv)) by discriminate.
    cbn [flat_map dropIf app nodeType Nat.eqb nodeValue].
    destruct (negb (truthy (trim cv))); [reflexivity|].
    cbn [flat_map app]; rewrite (Hel (Text cj cv)) by discriminate; reflexivity.
  - rewrite (Hel (Other cj ck cv)) by (destruct ck; discriminate).
    destruct ck; reflexivity.
Qed.

Lemma isRemoved_element (c : node) : nodeType c <> 1 -> isRemoved c = false.
Proof.
  destruct c as [| |j k v]; [intros H; exfalso; apply H; reflexivity| |];
    reflexivity.
Qed.

Lemma NoDup_ids_relabel (k : nat) (t : node) :
  NoDup (ids t) -> NoDup (ids (relabel k t)).
Proof.
  intros H; rewrite ids_relabel; apply Injective_map_NoDup; [|exact H].
  intros x y E; lia.
Qed.

Lemma truthy_trim (v : jsstring) :
  truthy (trim v) = negb (forallb isWhiteSpace v).
Proof.
  destruct (forallb isWhiteSpace v) eqn:E.
  - apply trim_blank in E; rewrite E; reflexivity.
  - destruct (trim v) eqn:Et; [|reflexivity].
    apply trim_blank in Et; congruence.
Qed.

Lemma reduceTree_one_walk (k : nat) (t : node) :
  NoDup (ids t) ->
  reduceTree (relabel k t) = relabel k (cleanElement (dropIf isRemoved t)).
Proof.
  intros H; unfold reduceTree.
  rewrite (eliminate_dropIf _ (NoDup_coherent _ (NoDup_ids_relabel k _ H))).
  rewrite (dropIf_relabel _ _ _ (isRemoved_relabel k)).
  apply cleanElement_relabel.
Qed.

Lemma simplifyDOM_one_walk (d : dom) :
  NoDup (ids (document_body d)) ->
  snd (simplifyDOM d)
  = Serialize.inner (cleanElement (dropIf isRemoved (document_body d))).
Proof.
  intros H; rewrite simplifyDOM_store; cbn [snd].
  rewrite (reduceTree_one_walk _ _ H); apply inner_relabel.
Qed.

Lemma app_nil_both {A : Type} (l l' : list A) :
  l ++ l' = [] <-> l = [] /\ l' = [].
Proof.
  split; [apply app_eq_nil | intros [-> ->]; reflexivity].
Qed.

Lemma escape_nil (mode : bool) (v : jsstring) :
  Serialize.escape mode v = [] -> v = [].
Proof.
  destruct v as [|c v]; [reflexivity|].
  unfold Serialize.escape; cbn [flat_map].
  destruct (c =? 38)%N; [discriminate|].
  destruct (c =? 160)%N; [discriminate|].
  destruct (c =? 60)%N; [discriminate|].
  destruct (c =? 62)%N; [discriminate|].
  destruct (mode && (c =? 34)%N); discriminate.
Qed.

Lemma remaining_markup_nil (cs : list node) :
  flat_map outerHTML
    (childNodes (cleanElement (dropIf isRemoved (Element 0 (html []) [] cs []))))
  = []
  <-> forallb (fun c => negb (leavesMarkup c)) cs = true.
Proof.
  cbn [dropIf cleanElement childNodes].
  induction cs as [|c cs IH]; [split; reflexivity|].
  cbn [flat_map forallb]; rewrite !flat_map_app, andb_true_iff, <- IH.
  rewrite app_nil_both.
  assert (Hc : flat_map outerHTML
                 (flat_map
                    (fun child =>
                       if nodeType child =? 1 then [cleanElement child]
                       else if nodeType child =? 3
                            then if negb (truthy (trim (nodeValue child)))
                                 then [] else [child]
                            else [])
                    (if isRemoved c then [] else [dropIf isRemoved c])) = []
               <-> negb (leavesMarkup c) = true); [|tauto].
  unfold leavesMarkup.
  destruct c as [cj ctg ca ccs cct|cj cv|cj ck cv].
  - cbn [nodeType Nat.eqb andb orb].
    destruct (isRemoved (Element cj ctg ca ccs cct)); [split; reflexivity|].
    cbn [negb orb flat_map dropIf nodeType Nat.eqb cleanElement app].
    split; [|discriminate].
    unfold outerHTML; cbn [Serialize.outer]; discriminate.
  - rewrite (isRemoved_element (Text cj cv)) by discriminate.
    cbn [nodeType Nat.eqb andb orb nodeValue flat_map dropIf app].
    rewrite truthy_trim, negb_involutive.
    destruct (forallb isWhiteSpace cv) eqn:E; [split; reflexivity|].
    cbn [negb flat_map app]; rewrite app_nil_r.
    split; [|discriminate].
    unfold outerHTML; cbn [Serialize.outer]; intros H.
    apply escape_nil in H; subst cv; discriminate.
  - rewrite (isRemoved_element (Other cj ck cv)) by (destruct ck; discriminate).
    destruct ck; split; reflexivity.
Qed.

Lemma removeFirst_keeps (q : jsstring) (attrs : list attr) (a : attr) :
  In a attrs -> name a <> q -> In a (removeFirst q attrs).
Proof.
  induction attrs as [|b attrs IH]; intros Hin Hq; [destruct Hin|].
  cbn [removeFirst]; destruct (JS.eqb (name b) q) eqn:E.
  - destruct Hin as [->|Hin]; [|exact Hin].
    apply eqb_eq in E; contradiction.
  - destruct Hin as [->|Hin]; [left; reflexivity | right; apply IH; auto].
Qed.

(* ================================================================= *)
(** ** The size of the markup *)

Lemma length_flat_map_removeFirst {B : Type} (f : attr -> list B)
      (q : jsstring) (attrs : list attr) :
  length (flat_map f (removeFirst q attrs)) <= length (flat_map f attrs).
Proof.
  induction attrs as [|a attrs IH]; [apply Nat.le_refl|].
  cbn [removeFirst flat_map]; destruct (JS.eqb (name a) q);
    cbn [flat_map]; rewrite ?length_app; lia.
Qed.

Lemma length_flat_map_cleanAttributes {B : Type} (f : attr -> list B)
      (onHTML : bool) (attrs : list attr) :
  length (flat_map f (cleanAttributes onHTML attrs))
  <= length (flat_map f attrs).
Proof.
  unfold cleanAttributes.
  assert (H : forall snapshot current,
             length (flat_map f (fold_left (attributeStep onHTML) snapshot current))
             <= length (flat_map f current)).
  { induction snapshot as [|a snapshot IH]; intros current;
      [apply Nat.le_refl|].
    cbn [fold_left]; eapply Nat.le_trans; [apply IH|].
    unfold attributeStep, removeAttribute.
    destruct (negb _); [apply length_flat_map_removeFirst | apply Nat.le_refl]. }
  apply H.
Qed.

Lemma children_shrink (raw : bool) (cs : list node) :
  (forall c r, In c cs ->
     length (Serialize.outer r (cleanElement (dropIf isRemoved c)))
     <= length (Serialize.outer r c)) ->
  length
    (flat_map (Serialize.outer raw)
       (flat_map
          (fun child =>
             if nodeType child =? 1 then [cleanElement child]
             else if nodeType child =? 3
                  then if negb (truthy (trim (nodeValue child)))
                       then [] else [child]
                  else [])
          (flat_map (fun c => if isRemoved c then [] else [dropIf isRemoved c])
                    cs)))
  <= length (flat_map (Serialize.outer raw) cs).
Proof.
  induction cs as [|c cs IH]; intros H; [apply Nat.le_refl|].
  cbn [flat_map]; rewrite !flat_map_app, !length_app.
  apply Nat.add_le_mono;
    [|apply IH; intros c' r Hc'; apply H; right; exact Hc'].
  specialize (H c raw (or_introl eq_refl)).
  destruct c as [cj ctg ca ccs cct|cj cv|cj ck cv].
  - destruct (isRemoved (Element cj ctg ca ccs cct));
      [cbn [flat_map length]; lia|].
    cbn [flat_map]; rewrite !app_nil_r.
    change (nodeType (dropIf isRemoved (Element cj ctg ca ccs cct)) =? 1)
      with true.
    cbv iota; cbn [flat_map]; rewrite !app_nil_r; exact H.
  - rewrite (isRemoved_element (Text cj cv)) by discriminate.
    cbn [flat_map dropIf app nodeType Nat.eqb nodeValue].
    destruct (negb (truthy (trim cv))); cbn [flat_map length app];
      rewrite ?app_nil_r; lia.
  - rewrite (isRemoved_element (Other cj ck cv)) by (destruct ck; discriminate).
    destruct ck; cbn [flat_map dropIf app nodeType Nat.eqb length]; lia.
Qed.

Lemma outer_shrinks (t : node) (raw : bool) :
  (forall x, In x (subtree t) -> withoutIsValue x = true) ->
  length (Serialize.outer raw (cleanElement (dropIf isRemoved t)))
  <= length (Serialize.outer raw t).
Proof.
  revert raw; induction t as [j tg a cs ct IH _|j v|j k v] using node_ind;
    intros raw Hno; try apply Nat.le_refl.
  pose proof (Hno _ (or_introl eq_refl)) as Hroot.
  cbn [withoutIsValue] in Hroot.
  cbn [dropIf cleanElement Serialize.outer].
  unfold Serialize.isPart.
  destruct (isValue tg); [discriminate|].
  rewrite !length_app.
  pose proof (length_flat_map_cleanAttributes Serialize.attribute
                (isHTML tg) a) as Ha.
  destruct (Serialize.isVoid tg); [cbn [length]; lia|].
  rewrite !length_app.
  destruct (isTemplate tg); [lia|].
  assert (Hcs := children_shrink (Serialize.isRawText tg) cs).
  rewrite Forall_forall in IH.
  assert (Hall : forall c r, In c cs ->
            length (Serialize.outer r (cleanElement (dropIf isRemoved c)))
            <= length (Serialize.outer r c)).
  { intros c r Hc; apply (IH c Hc).
    intros x Hx; apply Hno; right; apply in_flat_map; exists c; auto. }
  specialize (Hcs Hall); lia.
Qed.

Lemma inner_shrinks (t : node) :
  forallb withoutIsValue (descendants t) = true ->
  length (Serialize.inner (cleanElement (dropIf isRemoved t)))
  <= length (Serialize.inner t).
Proof.
  intros Hno; rewrite forallb_forall in Hno.
  destruct t as [j tg a cs ct| |]; try apply Nat.le_refl.
  cbn [dropIf cleanElement Serialize.inner].
  destruct (Serialize.isVoid tg); [apply Nat.le_refl|].
  destruct (isTemplate tg); [apply Nat.le_refl|].
  apply children_shrink; intros c r Hc; apply outer_shrinks.
  intros x Hx; apply Hno; unfold descendants; cbn [childNodes].
  apply in_flat_map; exists c; auto.
Qed.

(* ================================================================= *)
(** ** The definitions, run *)

(** The demo page reduces to
    [<div><p class="a">Hi</p><span></span></div>]: the script, the nested
    [svg] and the comment are gone, [style] and [onload] are stripped, the
    blank text of the [span] is dropped and the [span] stays. *)
Example simplifyDOM_demo :
  snd (simplifyDOM Demo.page)
  = lit "<div><p class=" ++ [34%N] ++ lit "a" ++ [34%N]
    ++ lit ">Hi</p><span></span></div>".
Proof. vm_compute; reflexivity. Qed.

(** The store does express a mutation of the live tree: [remove] on a
    reference to one of its nodes changes [document.body]. *)
Example remove_reaches_live_tree :
  outerHTML (document_body (remove 2 Demo.page))
  <> outerHTML (document_body Demo.page).
Proof. vm_compute; discriminate. Qed.

(** The attribute loop removes by name from the list it does not iterate
    over. *)
Example cleanAttributes_demo :
  cleanAttributes true
    [plain (lit "onclick") (lit "f()"); plain (lit "id") (lit "q");
     plain (lit "data-x") (lit "1"); plain (lit "href") (lit "/")]
  = [plain (lit "id") (lit "q"); plain (lit "href") (lit "/")].
Proof. vm_compute; reflexivity. Qed.

(** On an HTML element [removeAttribute] looks for the lower-cased name:
    asked to remove [ID], it removes [id]. *)
Example removeAttribute_demo :
  removeAttribute true (lit "ID")
    [plain (lit "ID") (lit "1"); plain (lit "id") (lit "2")]
  = [plain (lit "ID") (lit "1")].
Proof. vm_compute; reflexivity. Qed.

(** A type selector matches an element outside the HTML namespace
    whatever the case of its local name. *)
Example hasTag_demo :
  hasTag (lit "svg") (Element 0 (svg (lit "SVG")) [] [] []) = true
  /\ hasTag (lit "svg") (Element 0 (html (lit "SVG")) [] [] []) = false.
Proof. split; vm_compute; reflexivity. Qed.

(** Whitespace is stripped at both ends only. *)
Example trim_demo : trim (lit "  a b  ") = lit "a b".
Proof. vm_compute; reflexivity. Qed.

(* ================================================================= *)
(** ** The reduction: [simplifyDOM] *)

(** C1 (exclusion completeness), on the page
    [<template><script>x=1</script><!--c--><p onclick="f()">  </p></template>
    <p id="k">t</p>].  The [script] element of the template contents is a
    node of the reduced clone, and the markup [simplifyDOM] returns holds
    its tags: [cloneNode] copies the template contents, the selectors of
    lines 20-24 do not reach them, and [innerHTML] writes them. *)
Theorem template_contents_keep_script :
  exists t x,
    reduced Defect.templatePage = Some t
    /\ In x (nodes t)
    /\ isExcluded x = true
    /\ snd (simplifyDOM Defect.templatePage)
       = lit "<template><script>x=1</script><!--c--><p onclick="
         ++ [34%N] ++ lit "f()" ++ [34%N]
         ++ lit ">  </p></template><p id=" ++ [34%N] ++ lit "k" ++ [34%N]
         ++ lit ">t</p>".
Proof.
  eexists.
  exists (Element 11 (html (lit "script")) [] [Text 12 (lit "x=1")] []).
  split; [vm_compute; reflexivity|].
  split; [do 2 right; left; reflexivity|].
  split; vm_compute; reflexivity.
Qed.

(** C2 (attribute closure), on the page whose body holds one [div] with
    the attributes [ID="1"], [id="2"] and an [id="3"] of another
    namespace.  The [div] of the reduced clone is left with [ID], which is
    not on the allow-list, and has lost the [id] that is: for [ID] line 34
    calls [removeAttribute("ID")], which on an HTML element removes the
    first attribute named [id].  On the page of the template, the [p] of
    the template contents keeps its [onclick]. *)
Theorem upper_case_attribute_survives :
  (exists t x,
     reduced Defect.upperCasePage = Some t
     /\ In x (subtree t)
     /\ attributes x
        = [plain (lit "ID") (lit "1"); Defect.namespaced (lit "id") (lit "3")]
     /\ ~ In (lit "ID") allowedAttributes
     /\ snd (simplifyDOM Defect.upperCasePage)
        = lit "<div ID=" ++ [34%N] ++ lit "1" ++ [34%N]
          ++ lit " id=" ++ [34%N] ++ lit "3" ++ [34%N] ++ lit "></div>")
  /\ (exists t x,
        reduced Defect.templatePage = Some t
        /\ In x (nodes t)
        /\ attributes x = [plain (lit "onclick") (lit "f()")]
        /\ ~ In (lit "onclick") allowedAttributes).
Proof.
  split.
  - eexists.
    exists (Element 3 (html (lit "div"))
              [plain (lit "ID") (lit "1"); Defect.namespaced (lit "id") (lit "3")]
              [] []).
    split; [vm_compute; reflexivity|].
    split; [right; left; reflexivity|].
    split; [reflexivity|].
    split; [|vm_compute; reflexivity].
    intros H; apply includes_In in H; vm_compute in H; discriminate.
  - eexists.
    exists (Element 14 (html (lit "p")) [plain (lit "onclick") (lit "f()")]
              [Text 15 (lit "  ")] []).
    split; [vm_compute; reflexivity|].
    split; [do 5 right; left; reflexivity|].
    split; [reflexivity|].
    intros H; apply includes_In in H; vm_compute in H; discriminate.
Qed.

(** C3 (no stray nodes), on the page of the template.  The comment and
    the blank text of the template contents are nodes of the reduced
    clone, and the markup holds both: [cleanElement] walks [childNodes],
    and the template contents are no child nodes. *)
Theorem template_contents_keep_comment :
  exists t x y,
    reduced Defect.templatePage = Some t
    /\ In x (nodes t) /\ nodeType x = 8
    /\ In y (nodes t) /\ isBlankText y = true
    /\ snd (simplifyDOM Defect.templatePage)
       = lit "<template><script>x=1</script><!--c--><p onclick="
         ++ [34%N] ++ lit "f()" ++ [34%N]
         ++ lit ">  </p></template><p id=" ++ [34%N] ++ lit "k" ++ [34%N]
         ++ lit ">t</p>".
Proof.
  eexists.
  exists (Other 13 Comment (lit "c")), (Text 15 (lit "  ")).
  split; [vm_compute; reflexivity|].
  split; [do 4 right; left; reflexivity|].
  split; [reflexivity|].
  split; [do 6 right; left; reflexivity|].
  split; vm_compute; reflexivity.
Qed.

(** C4 (idempotence), on the page of the [div] with [ID], [id] and the
    [id] of another namespace.  The first reduction returns
    [<div ID="1" id="3"></div>]; the reduction of a page whose body is the
    reduced clone returns [<div ID="1"></div>]: the [removeAttribute("ID")]
    of the second run removes the [id] that the first run left. *)
Theorem second_reduction_differs :
  exists r,
    reduced Defect.upperCasePage = Some r
    /\ snd (simplifyDOM Defect.upperCasePage)
       = lit "<div ID=" ++ [34%N] ++ lit "1" ++ [34%N]
         ++ lit " id=" ++ [34%N] ++ lit "3" ++ [34%N] ++ lit "></div>"
    /\ snd (simplifyDOM {| document_body := r; orphans := [] |})
       = lit "<div ID=" ++ [34%N] ++ lit "1" ++ [34%N] ++ lit "></div>".
Proof.
  eexists; split; [vm_compute; reflexivity|].
  split; vm_compute; reflexivity.
Qed.

(** C5 (non-mutation). For every page, a run of [simplifyDOM] leaves the
    tree under [document.body] as it was, hence its serialisation too; the
    page's other trees are kept, and the only change to the store is one
    new tree, the clone, none of whose nodes is a node of the page. *)
Theorem original_not_mutated (d : dom) :
  document_body (fst (simplifyDOM d)) = document_body d
  /\ outerHTML (document_body (fst (simplifyDOM d)))
     = outerHTML (document_body d)
  /\ exists t,
       orphans (fst (simplifyDOM d)) = orphans d ++ [t]
       /\ reduced d = Some t
       /\ forall i, In i (ids t) -> ~ In i (dom_ids d).
Proof.
  rewrite simplifyDOM_store; cbn [fst with_clone document_body orphans].
  split; [reflexivity|]; split; [reflexivity|].
  exists (reduceTree (relabel (fresh d) (document_body d))).
  split; [reflexivity|]; split; [apply reduced_store|].
  intros i Hi.
  pose proof (relabel_fresh_apart d (document_body d)) as Ha.
  destruct (removeTags_with_clone _ _ tagsToRemove _ Ha) as (_ & _ & E3).
  unfold apart in E3; destruct d as [b os]; apply E3.
  apply ids_cleanElement_incl; exact Hi.
Qed.

(** C6 (truncation bound). For every page, the markup the pipeline sends
    on is at most 15000 code units long, and it is the first 15000 code
    units of the markup [simplifyDOM] returned. *)
Theorem truncation_bound (d : dom) :
  (Z.of_nat (length (truncatedHTML (snd (simplifyDOM d)))) <= 15000)%Z
  /\ truncatedHTML (snd (simplifyDOM d))
     = firstn (Z.to_nat 15000) (snd (simplifyDOM d)).
Proof.
  unfold truncatedHTML; rewrite slice_prefix by lia.
  split; [|reflexivity].
  rewrite length_firstn; lia.
Qed.

(** C10 (inner markup only). For a page whose body is a [body] or
    [frameset] element, the returned markup is the concatenation of the
    markup of the children the clone's root is left with: it is the same
    whatever the root's tag and attributes are, and it is empty when the
    root is left with no child. *)
Theorem inner_markup_only
        (i : nat) (tg tg' : tag) (a a' : list attr) (cs ct os : list node) :
  isBodyTag tg = true ->
  isBodyTag tg' = true ->
  snd (simplifyDOM {| document_body := Element i tg a cs ct; orphans := os |})
  = snd (simplifyDOM
           {| document_body := Element i tg' a' cs ct; orphans := os |})
  /\ exists t,
       reduced {| document_body := Element i tg a cs ct; orphans := os |}
       = Some t
       /\ snd (simplifyDOM
                 {| document_body := Element i tg a cs ct; orphans := os |})
          = flat_map outerHTML (childNodes t)
       /\ (childNodes t = [] ->
           snd (simplifyDOM
                  {| document_body := Element i tg a cs ct; orphans := os |})
           = []).
Proof.
  intros Htg Htg'.
  set (d := {| document_body := Element i tg a cs ct; orphans := os |}).
  set (d' := {| document_body := Element i tg' a' cs ct; orphans := os |}).
  assert (Hfresh : fresh d' = fresh d) by reflexivity.
  destruct (reduceTree_root (fresh d + i) (map (relabel (fresh d)) cs)
              (map (relabel (fresh d)) ct))
    as (cs' & ct' & Hroot).
  assert (Hd : reduceTree (relabel (fresh d) (document_body d))
               = Element (fresh d + i) tg (cleanAttributes (isHTML tg) a)
                         cs' ct')
    by apply Hroot.
  assert (Hd' : reduceTree (relabel (fresh d') (document_body d'))
                = Element (fresh d + i) tg' (cleanAttributes (isHTML tg') a')
                          cs' ct')
    by (rewrite Hfresh; apply Hroot).
  rewrite !simplifyDOM_store; cbn [snd]; rewrite Hd, Hd'.
  rewrite !body_serializes_children by assumption.
  split; [reflexivity|].
  eexists; split; [rewrite reduced_store, Hd; reflexivity|].
  cbn [childNodes]; split; [reflexivity|].
  intros ->; reflexivity.
Qed.

Lemma inner_markup_only_witness :
  isBodyTag (html (lit "body")) = true
  /\ isBodyTag (html (lit "frameset")) = true
  /\ snd (simplifyDOM Demo.page)
     = snd (simplifyDOM
              {| document_body :=
                   Element 0 (html (lit "frameset")) []
                           (childNodes Demo.body) [];
                 orphans := [] |}).
Proof.
  split; [reflexivity|]; split; [reflexivity|].
  apply (inner_markup_only 0 (html (lit "body")) (html (lit "frameset"))
           [plain (lit "onload") (lit "x()"); plain (lit "class") (lit "b")] []
           (childNodes Demo.body) [] []); reflexivity.
Defined.

(* ================================================================= *)
(** ** The pipeline: [getElementSelector] *)

(** A run whose page loads and whose model answers: everything up to the
    check of the selector is fixed, and the [try] ends the way the check
    ends. *)
Lemma getElementSelector_loaded
      (h : host) (url description : jsstring) (d : dom) (content : jsstring) :
  goto h url = Return d ->
  chat h (prompt description (truncatedHTML (snd (simplifyDOM d))))
  = Return content ->
  getElementSelector h url description
  = (eventsBeforeVerification url
       (prompt description (truncatedHTML (snd (simplifyDOM d))))
       (trim content)
     ++ fst (verifySelector h (document_body d) (trim content))
     ++ match snd (verifySelector h (document_body d) (trim content)) with
        | Return _ => []
        | Throw e => [ConsoleError (MsgFailed e)]
        end
     ++ [BrowserClose],
     match snd (verifySelector h (document_body d) (trim content)) with
     | Return _ => Return (Some (trim content))
     | Throw _ => Return None
     end).
Proof.
  intros Hgoto Hchat.
  unfold getElementSelector, call; rewrite Hgoto.
  cbn [bind emit ret app try_catch_finally].
  rewrite (simplifyDOM_store d) in *; cbn [snd] in *.
  cbn [bind emit ret app try_catch_finally document_body with_clone].
  rewrite Hchat.
  unfold eventsBeforeVerification.
  destruct (verifySelector h (document_body d) (trim content)) as [t [[]|e]];
    cbn [bind emit ret app try_catch_finally fst snd];
    rewrite ?app_nil_r; reflexivity.
Qed.

Lemma verifySelector_throws
      (h : host) (live : node) (selector : jsstring) (e : error) :
  locator h selector live = Throw e ->
  verifySelector h live selector = ([LocatorQuery selector], Throw e).
Proof. intros H; unfold verifySelector, call; rewrite H; reflexivity. Qed.

Lemma verifySelector_none (h : host) (live : node) (selector : jsstring) :
  locator h selector live = Return [] ->
  verifySelector h live selector
  = ([LocatorQuery selector; ConsoleWarn (MsgNotFound selector)], Return tt).
Proof. intros H; unfold verifySelector, call; rewrite H; reflexivity. Qed.

Lemma verifySelector_some
      (h : host) (live : node) (selector : jsstring) (el : nat)
      (others : list nat) :
  locator h selector live = Return (el :: others) ->
  verifySelector h live selector
  = ([LocatorQuery selector; ConsoleLog (MsgFound (S (length others)));
      LocatorQuery selector; Highlight el; WaitForTimeout 3000%N],
     Return tt).
Proof. intros H; unfold verifySelector, call; rewrite H; reflexivity. Qed.









(* ================================================================= *)
(** ** More on the reduction *)

Lemma lowerCaseNames_subtree_relabel (k : nat) (t : node) :
  forallb lowerCaseNames (subtree t) = true ->
  forall y, In y (subtree (relabel k t)) -> lowerCaseNames y = true.
Proof.
  intros H y Hy; rewrite forallb_forall in H.
  rewrite subtree_relabel in Hy; apply in_map_iff in Hy as (x & <- & Hx).
  rewrite lowerCaseNames_relabel; apply H, Hx.
Qed.

Lemma NoDup_ids_demo : NoDup (ids Demo.body).
Proof.
  unfold ids; cbn.
  repeat (constructor; [cbn; intuition discriminate|]); constructor.
Qed.

(** X1. On a tree whose nodes have distinct identities, the seven
    [querySelectorAll]/[remove] rounds of lines 20-24 amount to one walk
    over the child nodes that drops every element one of the seven
    selectors matches, together with what is below it, and touches nothing
    else; template contents are not walked. *)
Theorem removal_is_one_walk (t : node) :
  NoDup (ids t) -> eliminate t = dropIf isRemoved t.
Proof. intros H; apply eliminate_dropIf, NoDup_coherent, H. Qed.

Lemma removal_is_one_walk_witness :
  NoDup (ids Demo.body)
  /\ eliminate Demo.body = dropIf isRemoved Demo.body.
Proof.
  split; [exact NoDup_ids_demo
         | apply (removal_is_one_walk Demo.body NoDup_ids_demo)].
Defined.

(** X2. On a page whose body has nodes of distinct identities, what
    [simplifyDOM] returns is the inner markup of [document.body] after one
    walk that drops the matched elements and one run of [cleanElement];
    the clone it leaves in the store is that tree, made of other nodes. *)
Theorem simplifyDOM_is_one_walk (d : dom) :
  NoDup (ids (document_body d)) ->
  snd (simplifyDOM d)
  = Serialize.inner (cleanElement (dropIf isRemoved (document_body d)))
  /\ exists t,
       reduced d = Some t
       /\ anonymous t
          = anonymous (cleanElement (dropIf isRemoved (document_body d))).
Proof.
  intros H; split.
  - apply simplifyDOM_one_walk, H.
  - eexists; split; [apply reduced_store|].
    rewrite (reduceTree_one_walk _ _ H); apply anonymous_relabel.
Qed.

Lemma simplifyDOM_is_one_walk_witness :
  NoDup (ids (document_body Demo.page))
  /\ snd (simplifyDOM Demo.page)
     = Serialize.inner
         (cleanElement (dropIf isRemoved (document_body Demo.page)))
  /\ exists t,
       reduced Demo.page = Some t
       /\ anonymous t
          = anonymous (cleanElement (dropIf isRemoved (document_body Demo.page))).
Proof.
  split; [exact NoDup_ids_demo
         | exact (simplifyDOM_is_one_walk Demo.page NoDup_ids_demo)].
Defined.

(** X3. On a tree whose nodes have distinct identities, the two phases of
    [simplifyDOM] commute: cleaning attributes and pruning children first
    and removing the listed tags afterwards leaves the same tree. *)
Theorem removal_commutes_with_cleaning (t : node) :
  NoDup (ids t) -> eliminate (cleanElement t) = cleanElement (eliminate t).
Proof.
  intros H; pose proof (NoDup_coherent _ H) as Hco.
  rewrite (eliminate_dropIf _ (coherent_cleanElement _ Hco)).
  rewrite (eliminate_dropIf _ Hco).
  symmetry; apply cleanElement_dropIf.
  - apply isRemoved_alike.
  - apply isRemoved_element.
Qed.

Lemma removal_commutes_with_cleaning_witness :
  NoDup (ids Demo.body)
  /\ eliminate (cleanElement Demo.body) = cleanElement (eliminate Demo.body).
Proof.
  split; [exact NoDup_ids_demo
         | apply (removal_commutes_with_cleaning Demo.body NoDup_ids_demo)].
Defined.

(** X4. On an element outside the HTML namespace, or on an HTML element
    whose attribute names are in ASCII lower case, the attribute loop of
    lines 31-36 keeps exactly the attributes whose name is on the
    allow-list: all of them, each with its value, in the order they had. *)
Theorem attributes_kept_in_order (onHTML : bool) (attrs : list attr) :
  (forall a, In a attrs ->
             (if onHTML then asciiLower (name a) else name a) = name a) ->
  cleanAttributes onHTML attrs
  = filter (fun a => includes allowedAttributes (name a)) attrs.
Proof. apply cleanAttributes_filter. Qed.

Lemma attributes_kept_in_order_witness :
  cleanAttributes true
    [plain (lit "onclick") (lit "f()"); plain (lit "id") (lit "q");
     plain (lit "href") (lit "/")]
  = filter (fun a => includes allowedAttributes (name a))
      [plain (lit "onclick") (lit "f()"); plain (lit "id") (lit "q");
       plain (lit "href") (lit "/")].
Proof.
  apply (attributes_kept_in_order true).
  intros a [<-|[<-|[<-|[]]]]; reflexivity.
Defined.

(** X5. [cleanElement] never removes an element: the elements below the
    root are the same nodes with the same tags, in the same order, also
    those that are left without any child. *)
Theorem cleanElement_keeps_elements (t : node) :
  map (fun x => (nid x, localName x)) (elementNodes (cleanElement t))
  = map (fun x => (nid x, localName x)) (elementNodes t).
Proof.
  induction t as [j tg a cs ct IH _|j v|j k v] using node_ind;
    try reflexivity.
  unfold elementNodes, descendants; cbn [cleanElement childNodes].
  induction IH as [|c cs Hc _ IHcs]; [reflexivity|].
  cbn [flat_map]; rewrite flat_map_app, !filter_app, !map_app, IHcs; f_equal.
  destruct c as [cj ctg ca ccs cct|cj cv|cj ck cv].
  - change (nodeType (Element cj ctg ca ccs cct) =? 1) with true; cbv iota.
    cbn [flat_map]; rewrite app_nil_r, !subtree_cons.
    cbn [filter nodeType Nat.eqb cleanElement map nid localName].
    f_equal; exact Hc.
  - cbn [nodeType Nat.eqb nodeValue].
    destruct (negb (truthy (trim cv))); reflexivity.
  - destruct ck; reflexivity.
Qed.

(** X6. [cleanElement] keeps a text node exactly when one of its code
    units is not ECMAScript white space; the empty text goes too.  The
    text nodes that stay are unchanged and in order. *)
Theorem text_kept_iff_not_blank (t : node) :
  textNodes (cleanElement t)
  = filter (fun x => negb (forallb isWhiteSpace (nodeValue x))) (textNodes t).
Proof.
  rewrite cleanElement_textNodes.
  unfold textNodes; apply filter_ext_in; intros x Hx.
  apply filter_In in Hx as [_ Hx].
  unfold isBlankText; rewrite Hx; cbn [andb].
  rewrite negb_involutive; apply truthy_trim.
Qed.

(** X7. On a tree whose HTML elements have attribute names in ASCII
    lower case, [cleanElement] is idempotent, reduced or not. *)
Theorem cleanElement_twice (t : node) :
  forallb lowerCaseNames (subtree t) = true ->
  cleanElement (cleanElement t) = cleanElement t.
Proof.
  intros H; rewrite forallb_forall in H.
  apply cleanElement_idempotent, H.
Qed.

Lemma cleanElement_twice_witness :
  forallb lowerCaseNames (subtree Demo.body) = true
  /\ cleanElement (cleanElement Demo.body) = cleanElement Demo.body.
Proof.
  split; [reflexivity | apply (cleanElement_twice Demo.body); reflexivity].
Defined.

(** X8. A body without children gives the empty markup, whatever its
    tag, its attributes and the other trees of the page. *)
Theorem empty_body_empty_markup
        (i : nat) (tg : tag) (a : list attr) (os : list node) :
  snd (simplifyDOM {| document_body := Element i tg a [] []; orphans := os |})
  = [].
Proof.
  rewrite simplifyDOM_store; cbn [snd document_body relabel map].
  unfold reduceTree; rewrite eliminate_fixed by (intros x []).
  cbn [cleanElement flat_map Serialize.inner].
  destruct (Serialize.isVoid tg); [reflexivity|].
  destruct (isTemplate tg); reflexivity.
Qed.

(** X9. For a [body] or [frameset] root with nodes of distinct
    identities, the returned markup is empty exactly when every child of
    the root is an element that one of the seven selectors matches, a text
    that is all white space, or a node that is neither element nor text. *)
Theorem markup_empty_iff
        (i : nat) (tg : tag) (a : list attr) (cs ct os : list node) :
  isBodyTag tg = true ->
  NoDup (ids (Element i tg a cs ct)) ->
  snd (simplifyDOM {| document_body := Element i tg a cs ct; orphans := os |})
  = []
  <-> forallb (fun c => negb (leavesMarkup c)) cs = true.
Proof.
  intros Htg Hnd.
  rewrite (simplifyDOM_one_walk
             {| document_body := Element i tg a cs ct; orphans := os |} Hnd).
  cbn [document_body]; rewrite <- remaining_markup_nil.
  cbn [dropIf cleanElement childNodes].
  rewrite (body_serializes_children tg _ _ _ _ Htg); reflexivity.
Qed.

Lemma markup_empty_iff_witness :
  isBodyTag (html (lit "body")) = true
  /\ NoDup (ids (Element 0 (html (lit "body")) []
                   [Element 1 (svg (lit "SVG")) [] [Text 2 (lit "x")] [];
                    Text 3 (lit "  "); Other 4 Comment (lit "c")] []))
  /\ snd (simplifyDOM
            {| document_body :=
                 Element 0 (html (lit "body")) []
                   [Element 1 (svg (lit "SVG")) [] [Text 2 (lit "x")] [];
                    Text 3 (lit "  "); Other 4 Comment (lit "c")] [];
               orphans := [] |}) = [].
Proof.
  assert (H : NoDup (ids (Element 0 (html (lit "body")) []
                   [Element 1 (svg (lit "SVG")) [] [Text 2 (lit "x")] [];
                    Text 3 (lit "  "); Other 4 Comment (lit "c")] []))).
  { unfold ids; cbn.
    repeat (constructor; [cbn; intuition discriminate|]); constructor. }
  split; [reflexivity|]; split; [exact H|].
  apply (markup_empty_iff 0 (html (lit "body")) [] _ [] [] eq_refl H);
    reflexivity.
Defined.

(** X22. On a page whose body has nodes of distinct identities and no
    element with an [is] value below it, the markup [simplifyDOM] returns
    is never longer than the [innerHTML] of [document.body] itself. *)
Theorem markup_never_grows (d : dom) :
  NoDup (ids (document_body d)) ->
  forallb withoutIsValue (descendants (document_body d)) = true ->
  length (snd (simplifyDOM d)) <= length (Serialize.inner (document_body d)).
Proof.
  intros H Hno; rewrite (simplifyDOM_one_walk d H).
  apply inner_shrinks, Hno.
Qed.

Lemma markup_never_grows_witness :
  NoDup (ids (document_body Demo.page))
  /\ forallb withoutIsValue (descendants (document_body Demo.page)) = true
  /\ length (snd (simplifyDOM Demo.page))
     <= length (Serialize.inner (document_body Demo.page)).
Proof.
  split; [exact NoDup_ids_demo|]; split; [reflexivity|].
  apply (markup_never_grows Demo.page NoDup_ids_demo); reflexivity.
Defined.

(** X23. For every page, the tree [simplifyDOM] serialises is the clone
    found in the store, and no element among the descendants of its root
    by child nodes, at any depth, is matched by one of the seven selectors
    or has a local name of the removal list.  Template contents are not
    among those descendants. *)
Theorem no_removed_descendant (d : dom) :
  exists t,
    reduced d = Some t
    /\ snd (simplifyDOM d) = Serialize.inner t
    /\ Forall (fun x => isRemoved x = false /\ isExcluded x = false)
              (descendants t).
Proof.
  exists (reduceTree (relabel (fresh d) (document_body d))).
  split; [apply reduced_store|].
  split; [rewrite simplifyDOM_store; reflexivity|].
  apply Forall_forall; intros x Hx.
  pose proof (reduceTree_no_removed _ _ Hx) as H.
  split; [exact H|].
  destruct (isExcluded x) eqn:E; [|reflexivity].
  apply isExcluded_isRemoved in E; congruence.
Qed.

(** X24. For a page whose HTML elements have attribute names in ASCII
    lower case, as the HTML parser and [setAttribute] leave them, every
    node of the reduced clone reached by child nodes, its root included,
    carries only attributes whose name is on the allow-list. *)
Theorem attributes_allowed_below (d : dom) :
  forallb lowerCaseNames (subtree (document_body d)) = true ->
  exists t,
    reduced d = Some t
    /\ Forall
         (fun x => Forall (fun a => In (name a) allowedAttributes)
                          (attributes x))
         (subtree t).
Proof.
  intros Hlow.
  exists (reduceTree (relabel (fresh d) (document_body d))).
  split; [apply reduced_store|].
  apply Forall_forall; intros x Hx.
  eapply cleanElement_attributes; [|exact Hx].
  apply (eliminate_keeps lowerCaseNames lowerCaseNames_detach).
  apply lowerCaseNames_subtree_relabel, Hlow.
Qed.

Lemma attributes_allowed_below_witness :
  forallb lowerCaseNames (subtree (document_body Demo.page)) = true
  /\ exists t,
       reduced Demo.page = Some t
       /\ Forall
            (fun x => Forall (fun a => In (name a) allowedAttributes)
                             (attributes x))
            (subtree t).
Proof.
  split; [reflexivity | apply (attributes_allowed_below Demo.page); reflexivity].
Defined.

(** X25. For every page, every descendant of the root of the reduced
    clone by child nodes is an element or a text node, none of these text
    nodes has an empty trimmed value, and they are exactly the non-blank
    text nodes the clone had when the pruning started: the same nodes,
    with the same data, in the same order. *)
Theorem no_stray_descendant (d : dom) :
  exists t,
    reduced d = Some t
    /\ Forall (fun x => nodeType x = 1 \/ nodeType x = 3) (descendants t)
    /\ Forall (fun x => isBlankText x = false) (descendants t)
    /\ textNodes t
       = filter (fun x => truthy (trim (nodeValue x)))
           (textNodes (eliminate (relabel (fresh d) (document_body d)))).
Proof.
  exists (reduceTree (relabel (fresh d) (document_body d))).
  split; [apply reduced_store|].
  split; [|split].
  - apply Forall_forall; intros x Hx.
    apply cleanElement_kinds in Hx; tauto.
  - apply Forall_forall; intros x Hx.
    apply cleanElement_kinds in Hx; tauto.
  - unfold reduceTree; rewrite cleanElement_textNodes.
    unfold textNodes; apply filter_ext_in; intros x Hx.
    apply filter_In in Hx as [_ Hx].
    unfold isBlankText; rewrite Hx; cbn [andb]; apply negb_involutive.
Qed.

(** X26. For a page whose HTML elements have attribute names in ASCII
    lower case, reducing a page whose body is the reduced clone gives a
    clone that equals the first one up to the identity of the nodes, and
    the same markup. *)
Theorem reduction_idempotent_lower_case (d : dom) :
  forallb lowerCaseNames (subtree (document_body d)) = true ->
  exists r,
    reduced d = Some r
    /\ forall os,
         exists r',
           reduced {| document_body := r; orphans := os |} = Some r'
           /\ anonymous r' = anonymous r
           /\ snd (simplifyDOM {| document_body := r; orphans := os |})
              = snd (simplifyDOM d).
Proof.
  intros Hlow.
  pose proof (lowerCaseNames_subtree_relabel (fresh d) _ Hlow) as Hrel.
  exists (reduceTree (relabel (fresh d) (document_body d))).
  split; [apply reduced_store|].
  intros os.
  set (r := reduceTree (relabel (fresh d) (document_body d))).
  set (d2 := {| document_body := r; orphans := os |}).
  exists (relabel (fresh d2) r).
  split; [|split].
  - rewrite reduced_store; cbn [document_body d2].
    unfold r; rewrite (reduceTree_fixed _ _ Hrel); reflexivity.
  - apply anonymous_relabel.
  - rewrite !simplifyDOM_store; cbn [snd document_body d2].
    unfold r at 1; rewrite (reduceTree_fixed _ _ Hrel); fold r.
    apply inner_relabel.
Qed.

Lemma reduction_idempotent_lower_case_witness :
  forallb lowerCaseNames (subtree (document_body Demo.page)) = true
  /\ exists r,
       reduced Demo.page = Some r
       /\ forall os,
            exists r',
              reduced {| document_body := r; orphans := os |} = Some r'
              /\ anonymous r' = anonymous r
              /\ snd (simplifyDOM {| document_body := r; orphans := os |})
                 = snd (simplifyDOM Demo.page).
Proof.
  split; [reflexivity
         | apply (reduction_idempotent_lower_case Demo.page); reflexivity].
Defined.

(** X27. On an HTML element the attribute loop never removes an attribute
    whose name has an ASCII upper-case letter, on the allow-list or not:
    [removeAttribute] looks for the lower-cased name. *)
Theorem upper_case_attribute_kept (attrs : list attr) (a : attr) :
  In a attrs ->
  asciiLower (name a) <> name a ->
  In a (cleanAttributes true attrs).
Proof.
  intros Hin Hup; unfold cleanAttributes.
  assert (H : forall snapshot current,
             In a current ->
             In a (fold_left (attributeStep true) snapshot current)).
  { induction snapshot as [|b snapshot IH]; intros current Hc; [exact Hc|].
    cbn [fold_left]; apply IH.
    unfold attributeStep, removeAttribute.
    destruct (negb _); [|exact Hc].
    apply removeFirst_keeps; [exact Hc|].
    intros E; apply Hup; rewrite E; apply asciiLower_idempotent. }
  apply H, Hin.
Qed.

Lemma upper_case_attribute_kept_witness :
  In (plain (lit "onClick") (lit "f()"))
     (cleanAttributes true
        [plain (lit "onClick") (lit "f()"); plain (lit "id") (lit "q")]).
Proof.
  apply (upper_case_attribute_kept
           [plain (lit "onClick") (lit "f()"); plain (lit "id") (lit "q")]
           (plain (lit "onClick") (lit "f()"))).
  - left; reflexivity.
  - vm_compute; discriminate.
Defined.
(* ================================================================= *)
(** ** Every run of the pipeline *)

Lemma getElementSelector_goto_fails
      (h : host) (url description : jsstring) (e : error) :
  goto h url = Throw e ->
  getElementSelector h url description
  = ([ConsoleLog (MsgLaunching url); Launch; NewPage; Goto url;
      ConsoleError (MsgFailed e); BrowserClose],
     Return None).
Proof.
  intros H; unfold getElementSelector, call; rewrite H; reflexivity.
Qed.

Lemma getElementSelector_chat_fails
      (h : host) (url description : jsstring) (d : dom) (e : error) :
  goto h url = Return d ->
  chat h (prompt description (truncatedHTML (snd (simplifyDOM d)))) = Throw e ->
  getElementSelector h url description
  = ([ConsoleLog (MsgLaunching url); Launch; NewPage; Goto url;
      WaitForTimeout 2000%N; ConsoleLog MsgExtracting; Evaluate;
      ConsoleLog MsgCallingModel;
      ChatCompletion (prompt description (truncatedHTML (snd (simplifyDOM d))));
      ConsoleError (MsgFailed e); BrowserClose],
     Return None).
Proof.
  intros Hgoto Hchat.
  unfold getElementSelector, call; rewrite Hgoto.
  cbn [bind emit ret app try_catch_finally].
  destruct (simplifyDOM d) as [d' html]; cbn [snd] in Hchat.
  cbn [bind emit ret app try_catch_finally].
  rewrite Hchat; reflexivity.
Qed.

(** The five ways a run can go. *)
Lemma getElementSelector_outcomes (h : host) (url description : jsstring) :
  (exists e,
      goto h url = Throw e
      /\ getElementSelector h url description
         = ([ConsoleLog (MsgLaunching url); Launch; NewPage; Goto url;
             ConsoleError (MsgFailed e); BrowserClose],
            Return None))
  \/ (exists d e,
         goto h url = Return d
         /\ chat h (prompt description (truncatedHTML (snd (simplifyDOM d))))
            = Throw e
         /\ getElementSelector h url description
            = ([ConsoleLog (MsgLaunching url); Launch; NewPage; Goto url;
                WaitForTimeout 2000%N; ConsoleLog MsgExtracting; Evaluate;
                ConsoleLog MsgCallingModel;
                ChatCompletion
                  (prompt description (truncatedHTML (snd (simplifyDOM d))));
                ConsoleError (MsgFailed e); BrowserClose],
               Return None))
  \/ (exists d content,
         goto h url = Return d
         /\ chat h (prompt description (truncatedHTML (snd (simplifyDOM d))))
            = Return content
         /\ ((exists e,
                 locator h (trim content) (document_body d) = Throw e
                 /\ getElementSelector h url description
                    = (eventsBeforeVerification url
                         (prompt description
                            (truncatedHTML (snd (simplifyDOM d))))
                         (trim content)
                       ++ [LocatorQuery (trim content);
                           ConsoleError (MsgFailed e); BrowserClose],
                       Return None))
             \/ (locator h (trim content) (document_body d) = Return []
                 /\ getElementSelector h url description
                    = (eventsBeforeVerification url
                         (prompt description
                            (truncatedHTML (snd (simplifyDOM d))))
                         (trim content)
                       ++ [LocatorQuery (trim content);
                           ConsoleWarn (MsgNotFound (trim content));
                           BrowserClose],
                       Return (Some (trim content))))
             \/ (exists el others,
                    locator h (trim content) (document_body d)
                    = Return (el :: others)
                    /\ getElementSelector h url description
                       = (eventsBeforeVerification url
                            (prompt description
                               (truncatedHTML (snd (simplifyDOM d))))
                            (trim content)
                          ++ [LocatorQuery (trim content);
                              ConsoleLog (MsgFound (S (length others)));
                              LocatorQuery (trim content); Highlight el;
                              WaitForTimeout 3000%N; BrowserClose],
                          Return (Some (trim content)))))).
Proof.
  destruct (goto h url) as [d|e] eqn:Hgoto.
  2:{ left; exists e; split; [reflexivity|].
      apply getElementSelector_goto_fails, Hgoto. }
  right.
  destruct (chat h (prompt description (truncatedHTML (snd (simplifyDOM d)))))
    as [content|e] eqn:Hchat.
  2:{ left; exists d, e; repeat split.
      - exact Hchat.
      - apply getElementSelector_chat_fails; assumption. }
  right; exists d, content; split; [reflexivity|]; split; [exact Hchat|].
  rewrite (getElementSelector_loaded h url description d content Hgoto Hchat).
  destruct (locator h (trim content) (document_body d)) as [[|el others]|e]
    eqn:Hloc.
  - right; left; split; [reflexivity|].
    rewrite (verifySelector_none _ _ _ Hloc); reflexivity.
  - right; right; exists el, others; split; [reflexivity|].
    rewrite (verifySelector_some _ _ _ _ _ Hloc); reflexivity.
  - left; exists e; split; [reflexivity|].
    rewrite (verifySelector_throws _ _ _ _ Hloc); reflexivity.
Qed.

Lemma trimStart_spec (s : jsstring) :
  exists w, s = w ++ trimStart s
            /\ (trimStart s = []
                \/ exists c r, trimStart s = c :: r /\ isWhiteSpace c = false).
Proof.
  induction s as [|c s (w & E & H)].
  - exists []; split; [reflexivity | left; reflexivity].
  - cbn [trimStart]; destruct (isWhiteSpace c) eqn:Hc.
    + exists (c :: w); split; [cbn [app]; congruence | exact H].
    + exists []; split; [reflexivity | right; exists c, s; auto].
Qed.

Lemma trimStart_clean (c : N) (r : jsstring) :
  isWhiteSpace c = false -> trimStart (c :: r) = c :: r.
Proof. intros H; cbn [trimStart]; rewrite H; reflexivity. Qed.

Lemma trim_idempotent (s : jsstring) : trim (trim s) = trim s.
Proof.
  unfold trim, trimEnd.
  destruct (trimStart_spec s) as (w0 & _ & [Hu|(c0 & r0 & Hu & Hc0)]);
    rewrite Hu; [reflexivity|].
  destruct (trimStart_spec (rev (c0 :: r0)))
    as (w & Erev & [Hv|(c & r & Hv & Hc)]); rewrite Hv in *; [reflexivity|].
  assert (Eu : c0 :: r0 = rev (c :: r) ++ rev w).
  { rewrite <- rev_app_distr, <- Erev, rev_involutive; reflexivity. }
  destruct (rev (c :: r)) as [|x xs] eqn:Ex.
  - apply (f_equal (@length N)) in Ex; rewrite length_rev in Ex; discriminate.
  - cbn [app] in Eu; injection Eu as <- _.
    rewrite (trimStart_clean _ _ Hc0), <- Ex, rev_involutive.
    rewrite (trimStart_clean _ _ Hc); reflexivity.
Qed.

Lemma prompt_length (description html : jsstring) :
  length (prompt description html)
  = length (prompt [] []) + length description + length html.
Proof.
  unfold prompt; cbn [map concat].
  repeat (rewrite ?length_app; cbn [length]).
  rewrite ?length_app; cbn [length].
  lia.
Qed.


Lemma demo_run_table :
  getElementSelector (Demo.answering (lit "table")) Demo.url Demo.description
  = (eventsBeforeVerification Demo.url
       (prompt Demo.description (truncatedHTML (snd (simplifyDOM Demo.page))))
       (lit "table")
     ++ [LocatorQuery (lit "table"); ConsoleWarn (MsgNotFound (lit "table"));
         BrowserClose],
     Return (Some (lit "table"))).
Proof.
  rewrite (getElementSelector_loaded (Demo.answering (lit "table")) Demo.url
             Demo.description Demo.page (lit "table") eq_refl eq_refl).
  change (trim (lit "table")) with (lit "table").
  rewrite (verifySelector_none (Demo.answering (lit "table"))
             (document_body Demo.page) (lit "table") eq_refl).
  reflexivity.
Qed.

Ltac pick_outcome H :=
  rewrite H; unfold eventsBeforeVerification; cbn [fst snd app].






(** X15. A selector that is returned is the trimmed answer of the model:
    it has no white space at either end, and it is the very string the
    live page was queried with. *)
Theorem returned_selector_trimmed
        (h : host) (url description selector : jsstring) :
  snd (getElementSelector h url description) = Return (Some selector) ->
  trim selector = selector
  /\ In (LocatorQuery selector) (fst (getElementSelector h url description)).
Proof.
  destruct (getElementSelector_outcomes h url description)
    as [(e & _ & Hg)|[(d & e & _ & _ & Hg)|(d & c & _ & _ &
         [(e & _ & Hg)|[(_ & Hg)|(el & others & _ & Hg)]])]];
    pick_outcome Hg; intros H; try discriminate;
    injection H as <-; (split; [apply trim_idempotent | cbn [In]; auto 20]).
Qed.

Lemma returned_selector_trimmed_witness :
  snd (getElementSelector (Demo.answering (lit " svg ")) Demo.url
         Demo.description)
  = Return (Some (lit "svg"))
  /\ trim (lit "svg") = lit "svg"
  /\ In (LocatorQuery (lit "svg"))
        (fst (getElementSelector (Demo.answering (lit " svg ")) Demo.url
                Demo.description)).
Proof.
  assert (H : snd (getElementSelector (Demo.answering (lit " svg ")) Demo.url
                     Demo.description) = Return (Some (lit "svg")))
    by reflexivity.
  split; [exact H|].
  exact (returned_selector_trimmed (Demo.answering (lit " svg ")) Demo.url
           Demo.description (lit "svg") H).
Defined.



(** X18. The prompt of every model call is bounded: the 479 code units
    of the template, the description, and at most 15000 code units of
    markup. *)
Theorem prompt_bounded (h : host) (url description p : jsstring) :
  In (ChatCompletion p) (fst (getElementSelector h url description)) ->
  (Z.of_nat (length p) <= 479 + Z.of_nat (length description) + 15000)%Z.
Proof.
  assert (Hp : forall html,
             (Z.of_nat (length (prompt description (truncatedHTML html)))
              <= 479 + Z.of_nat (length description) + 15000)%Z).
  { intros html; rewrite prompt_length.
    change (length (prompt [] [])) with 479.
    unfold truncatedHTML; rewrite slice_prefix by lia.
    rewrite length_firstn; lia. }
  destruct (getElementSelector_outcomes h url description)
    as [(e & _ & Hg)|[(d & e & _ & _ & Hg)|(d & c & _ & _ &
         [(e & _ & Hg)|[(_ & Hg)|(el & others & _ & Hg)]])]];
    pick_outcome Hg; intros Hin; cbn [In] in Hin;
    repeat (destruct Hin as [Hin|Hin]; [try discriminate|]);
    try (injection Hin as <-; apply Hp); destruct Hin.
Qed.

Lemma prompt_bounded_witness :
  In (ChatCompletion
        (prompt Demo.description (truncatedHTML (snd (simplifyDOM Demo.page)))))
     (fst (getElementSelector (Demo.answering (lit "table")) Demo.url
             Demo.description))
  /\ (Z.of_nat
        (length
           (prompt Demo.description
              (truncatedHTML (snd (simplifyDOM Demo.page)))))
      <= 479 + Z.of_nat (length Demo.description) + 15000)%Z.
Proof.
  assert (H : In (ChatCompletion
                    (prompt Demo.description
                       (truncatedHTML (snd (simplifyDOM Demo.page)))))
                 (fst (getElementSelector (Demo.answering (lit "table"))
                         Demo.url Demo.description))).
  { rewrite demo_run_table; unfold eventsBeforeVerification.
    cbn [fst app In]; do 8 right; left; reflexivity. }
  split; [exact H|].
  apply (prompt_bounded (Demo.answering (lit "table")) Demo.url
           Demo.description _ H).
Defined.

(** X20. The truncation of line 82 keeps a prefix, of the length of the
    markup or of 15000 code units, whichever is less. *)
Theorem truncatedHTML_length (html : jsstring) :
  Z.of_nat (length (truncatedHTML html)) = Z.min (Z.of_nat (length html)) 15000
  /\ exists rest, html = truncatedHTML html ++ rest.
Proof.
  unfold truncatedHTML; rewrite slice_prefix by lia; split.
  - rewrite length_firstn; lia.
  - exists (skipn (Z.to_nat 15000) html); symmetry; apply firstn_skipn.
Qed.

(** X21. Markup of at most 15000 code units is sent on as it is. *)
Theorem truncatedHTML_fits (html : jsstring) :
  (Z.of_nat (length html) <= 15000)%Z -> truncatedHTML html = html.
Proof.
  intros H; unfold truncatedHTML; rewrite slice_prefix by lia.
  apply firstn_all2; lia.
Qed.

Lemma truncatedHTML_fits_witness :
  (Z.of_nat (length (snd (simplifyDOM Demo.page))) <= 15000)%Z
  /\ truncatedHTML (snd (simplifyDOM Demo.page)) = snd (simplifyDOM Demo.page).
Proof.
  assert (H : (Z.of_nat (length (snd (simplifyDOM Demo.page))) <= 15000)%Z)
    by (vm_compute; discriminate).
  split; [exact H | apply (truncatedHTML_fits _ H)].
Defined.


(* ================================================================= *)
(** ** Every run, with every call to the browser *)

(** When no call to the browser throws, the run is the run of
    [getElementSelector]. *)
Lemma getElementSelector_on_steady
      (b : browser) (h : host) (url description : jsstring) :
  launch b = Return tt ->
  newPage b = Return tt ->
  waitLoaded b = Return tt ->
  evaluate b = Return tt ->
  (forall el, highlight b el = Return tt) ->
  waitShown b = Return tt ->
  close b = Return tt ->
  getElementSelector_on b h url description
  = getElementSelector h url description.
Proof.
  intros Hl Hn Hw He Hh Hs Hc.
  unfold getElementSelector_on, attempt, getElementSelector,
    verifySelector_on, verifySelector, call, emit.
  rewrite Hl, Hn, Hw, He, Hs, Hc.
  destruct (goto h url) as [d|e]; [|reflexivity].
  cbn [bind app]; destruct (simplifyDOM d) as [d' html].
  destruct (chat h (prompt description (truncatedHTML html)))
    as [content|e]; [|reflexivity].
  cbn [bind app].
  destruct (locator h (trim content) (document_body d'))
    as [[|el others]|e]; try reflexivity.
  cbn [bind app length Nat.ltb Nat.leb]; rewrite Hh; reflexivity.
Qed.

Lemma getElementSelector_on_no_browser
      (b : browser) (h : host) (url description : jsstring) (e : error) :
  launch b = Throw e ->
  getElementSelector_on b h url description
  = ([ConsoleLog (MsgLaunching url); Launch], Throw e).
Proof.
  intros H; unfold getElementSelector_on, call; rewrite H; reflexivity.
Qed.

Lemma getElementSelector_on_no_page
      (b : browser) (h : host) (url description : jsstring) (e : error) :
  launch b = Return tt ->
  newPage b = Throw e ->
  getElementSelector_on b h url description
  = ([ConsoleLog (MsgLaunching url); Launch; NewPage], Throw e).
Proof.
  intros Hl Hn; unfold getElementSelector_on, call; rewrite Hl, Hn.
  reflexivity.
Qed.

(** Once the browser and the page are open: the events of the [try], the
    error log if it threw, and the shutdown; the outcome is the one of
    the shutdown if that throws, and of the [try] or the [catch] if not. *)
Lemma getElementSelector_on_opened
      (b : browser) (h : host) (url description : jsstring) :
  launch b = Return tt ->
  newPage b = Return tt ->
  getElementSelector_on b h url description
  = ([ConsoleLog (MsgLaunching url); Launch; NewPage]
     ++ fst (attempt b h url description)
     ++ match snd (attempt b h url description) with
        | Return _ => []
        | Throw e => [ConsoleError (MsgFailed e)]
        end
     ++ [BrowserClose],
     match close b with
     | Return _ =>
         match snd (attempt b h url description) with
         | Return r => Return r
         | Throw _ => Return None
         end
     | Throw e => Throw e
     end).
Proof.
  intros Hl Hn; unfold getElementSelector_on, call; rewrite Hl, Hn.
  destruct (attempt b h url description) as [t [r|e]];
    destruct (close b) as [[]|e'];
    cbn [bind emit ret app try_catch_finally fst snd];
    rewrite ?app_nil_r; reflexivity.
Qed.

(** What the block of the [try] emits and returns. *)
Lemma attempt_spec (b : browser) (h : host) (url description : jsstring) :
  Forall (fun e => insideTry e = true) (fst (attempt b h url description))
  /\ forall r, snd (attempt b h url description) = Return r ->
               exists selector, r = Some selector.
Proof.
  assert (Hleaf : forall (t : list event) (r : result (option jsstring)),
             Forall (fun e => insideTry e = true) t ->
             (forall x, r = Return x -> exists selector, x = Some selector) ->
             Forall (fun e => insideTry e = true) (fst (t, r))
             /\ forall x, snd (t, r) = Return x ->
                          exists selector, x = Some selector)
    by (intros t r Ht Hr; split; assumption).
  unfold attempt, verifySelector_on, call, emit, ret.
  destruct (goto h url) as [d|e]; cbn [bind app];
    [|apply Hleaf; [repeat constructor | discriminate]].
  destruct (waitLoaded b) as [[]|e]; cbn [bind app];
    [|apply Hleaf; [repeat constructor | discriminate]].
  destruct (evaluate b) as [[]|e]; cbn [bind app];
    [|apply Hleaf; [repeat constructor | discriminate]].
  destruct (simplifyDOM d) as [d' html].
  destruct (chat h (prompt description (truncatedHTML html)))
    as [content|e]; cbn [bind app];
    [|apply Hleaf; [repeat constructor | discriminate]].
  destruct (locator h (trim content) (document_body d'))
    as [[|el others]|e]; cbn [bind app length Nat.ltb Nat.leb].
  - apply Hleaf; [repeat constructor|].
    intros x Hx; injection Hx as <-; eexists; reflexivity.
  - destruct (highlight b el) as [[]|e]; cbn [bind app];
      [|apply Hleaf; [repeat constructor | discriminate]].
    destruct (waitShown b) as [[]|e]; cbn [bind app];
      [|apply Hleaf; [repeat constructor | discriminate]].
    apply Hleaf; [repeat constructor|].
    intros x Hx; injection Hx as <-; eexists; reflexivity.
  - apply Hleaf; [repeat constructor | discriminate].
Qed.

Lemma attempt_quiet
      (b : browser) (h : host) (url description : jsstring) (e : event) :
  In e ([ConsoleLog (MsgLaunching url); Launch; NewPage]
        ++ fst (attempt b h url description)) ->
  insideTry e = true.
Proof.
  intros H; apply in_app_or in H as [H|H].
  - destruct H as [<-|[<-|[<-|[]]]]; reflexivity.
  - destruct (attempt_spec b h url description) as [Hq _].
    rewrite Forall_forall in Hq; apply Hq, H.
Qed.

(** The runs of the three browsers. *)
Example missing_browser_run :
  getElementSelector_on missingBrowser (Demo.answering (lit "p")) Demo.url
    Demo.description
  = ([ConsoleLog (MsgLaunching Demo.url); Launch],
     Throw (JsError (lit "Executable not found"))).
Proof. reflexivity. Qed.

Example crashed_page_run :
  getElementSelector_on crashedPage (Demo.answering (lit "p")) Demo.url
    Demo.description
  = ([ConsoleLog (MsgLaunching Demo.url); Launch; NewPage; Goto Demo.url;
      WaitForTimeout 2000%N; ConsoleLog MsgExtracting; Evaluate;
      ConsoleError (MsgFailed (JsError (lit "Target page has been closed")));
      BrowserClose],
     Return None).
Proof. reflexivity. Qed.

Example stuck_browser_run :
  snd (getElementSelector_on stuckBrowser (Demo.answering (lit "p")) Demo.url
         Demo.description)
  = Throw (JsError (lit "Browser has been closed")).
Proof.
  rewrite getElementSelector_on_opened by reflexivity; reflexivity.
Qed.

(** X10. A call of [getElementSelector] ends with an error in three
    cases only: [chromium.launch] threw it, [browser.newPage] threw it, or
    [browser.close] threw it in the [finally].  Whatever is thrown in
    between, by the navigation, the waits, the evaluation, the model, the
    query or the highlight, does not reach the caller. *)
Theorem errors_that_escape
        (b : browser) (h : host) (url description : jsstring) (e : error) :
  snd (getElementSelector_on b h url description) = Throw e
  <-> launch b = Throw e
      \/ (launch b = Return tt /\ newPage b = Throw e)
      \/ (launch b = Return tt /\ newPage b = Return tt
          /\ close b = Throw e).
Proof.
  destruct (launch b) as [[]|e1] eqn:Hl.
  - destruct (newPage b) as [[]|e2] eqn:Hn.
    + rewrite (getElementSelector_on_opened b h url description Hl Hn).
      cbn [snd].
      destruct (close b) as [[]|e3];
        destruct (snd (attempt b h url description)) as [r|e4];
        split; intros H; try discriminate;
        try (injection H as ->; right; right; repeat split);
        try (destruct H as [H|[[_ H]|(_ & _ & H)]]; congruence).
    + rewrite (getElementSelector_on_no_page b h url description e2 Hl Hn).
      cbn [snd]; split; intros H.
      * injection H as ->; right; left; split; reflexivity.
      * destruct H as [H|[[_ H]|(_ & H & _)]]; congruence.
  - rewrite (getElementSelector_on_no_browser b h url description e1 Hl).
    cbn [snd]; split; intros H.
    + injection H as ->; left; reflexivity.
    + destruct H as [H|[[H _]|(H & _)]]; congruence.
Qed.

(** X11. The browser is closed exactly on the runs in which it was
    launched and its page was opened; on those runs [browser.close] is
    called once, and calling it is the last thing the run does.  When
    [chromium.launch] or [browser.newPage] throws, nothing closes what was
    opened. *)
Theorem browser_closed_iff_opened
        (b : browser) (h : host) (url description : jsstring) :
  (In BrowserClose (fst (getElementSelector_on b h url description))
   <-> launch b = Return tt /\ newPage b = Return tt)
  /\ (In BrowserClose (fst (getElementSelector_on b h url description)) ->
      exists t,
        fst (getElementSelector_on b h url description) = t ++ [BrowserClose]
        /\ ~ In BrowserClose t).
Proof.
  destruct (launch b) as [[]|e1] eqn:Hl.
  - destruct (newPage b) as [[]|e2] eqn:Hn.
    + rewrite (getElementSelector_on_opened b h url description Hl Hn).
      cbn [fst].
      assert (Hlast :
                exists t,
                  [ConsoleLog (MsgLaunching url); Launch; NewPage]
                  ++ fst (attempt b h url description)
                  ++ match snd (attempt b h url description) with
                     | Return _ => []
                     | Throw e => [ConsoleError (MsgFailed e)]
                     end ++ [BrowserClose]
                  = t ++ [BrowserClose]
                  /\ ~ In BrowserClose t).
      { exists (([ConsoleLog (MsgLaunching url); Launch; NewPage]
                 ++ fst (attempt b h url description))
                ++ match snd (attempt b h url description) with
                   | Return _ => []
                   | Throw e => [ConsoleError (MsgFailed e)]
                   end).
        split; [rewrite <- !app_assoc; reflexivity|].
        intros H; apply in_app_or in H as [H|H].
        - apply attempt_quiet in H; discriminate.
        - destruct (snd (attempt b h url description));
            [destruct H | destruct H as [H|[]]; discriminate]. }
      split; [|intros _; exact Hlast].
      split; [auto|intros _].
      destruct Hlast as (t & -> & _).
      apply in_or_app; right; left; reflexivity.
    + rewrite (getElementSelector_on_no_page b h url description e2 Hl Hn).
      cbn [fst In]; split; [split|]; intros H;
        try (destruct H as [_ H]; discriminate);
        repeat (destruct H as [H|H]; [discriminate|]); destruct H.
  - rewrite (getElementSelector_on_no_browser b h url description e1 Hl).
    cbn [fst In]; split; [split|]; intros H;
      try (destruct H as [H _]; discriminate);
      repeat (destruct H as [H|H]; [discriminate|]); destruct H.
Qed.

(** X17. The caller of lines 131-138 reaches its last line, the log of
    the result, exactly when the browser launched, its page opened and
    its shutdown did not throw; it then ends normally, and the result it
    logs last is what [getElementSelector] returned, a selector or
    [undefined].  On every other run the caller ends with the error and
    logs no result. *)
Theorem main_logs_result_iff_opened (b : browser) (h : host) :
  ((exists r, In (ConsoleLog (MsgResult r)) (fst (main_on b h)))
   <-> launch b = Return tt /\ newPage b = Return tt /\ close b = Return tt)
  /\ (snd (main_on b h) = Return tt
      <-> launch b = Return tt /\ newPage b = Return tt
          /\ close b = Return tt)
  /\ (snd (main_on b h) = Return tt ->
      exists r,
        snd (getElementSelector_on b h (lit "https://www.baidu.com")
               [25628; 32034; 36755; 20837; 26694]%N)
        = Return r
        /\ fst (main_on b h)
           = fst (getElementSelector_on b h (lit "https://www.baidu.com")
                    [25628; 32034; 36755; 20837; 26694]%N)
             ++ [ConsoleLog (MsgResult r)]).
Proof.
  unfold main_on.
  set (url := lit "https://www.baidu.com").
  set (target := [25628; 32034; 36755; 20837; 26694]%N).
  destruct (launch b) as [[]|e1] eqn:Hl.
  - destruct (newPage b) as [[]|e2] eqn:Hn.
    + rewrite (getElementSelector_on_opened b h url target Hl Hn).
      assert (Hquiet :
                forall r,
                  ~ In (ConsoleLog (MsgResult r))
                       ([ConsoleLog (MsgLaunching url); Launch; NewPage]
                        ++ fst (attempt b h url target)
                        ++ match snd (attempt b h url target) with
                           | Return _ => []
                           | Throw e => [ConsoleError (MsgFailed e)]
                           end ++ [BrowserClose])).
      { intros r H; rewrite app_assoc in H; apply in_app_or in H as [H|H].
        - apply attempt_quiet in H; discriminate.
        - apply in_app_or in H as [H|[H|[]]]; [|discriminate].
          destruct (snd (attempt b h url target));
            [destruct H | destruct H as [H|[]]; discriminate]. }
      destruct (close b) as [[]|e3].
      * assert (Hr : exists r,
                   match snd (attempt b h url target) with
                   | Return r => Return r
                   | Throw _ => Return None
                   end = Return r)
          by (destruct (snd (attempt b h url target)); eexists; reflexivity).
        destruct Hr as (r & Hr); rewrite Hr.
        cbn [bind emit fst snd].
        split; [|split].
        -- split; [auto|intros _; exists r].
           apply in_or_app; right; left; reflexivity.
        -- split; auto.
        -- intros _; exists r; split; reflexivity.
      * cbn [bind fst snd].
        split; [|split].
        -- split; [intros (r & H); destruct (Hquiet r H)|].
           intros (_ & _ & H); discriminate.
        -- split; [discriminate | intros (_ & _ & H); discriminate].
        -- discriminate.
    + rewrite (getElementSelector_on_no_page b h url target e2 Hl Hn).
      cbn [bind fst snd In].
      split; [|split].
      * split; [|intros (_ & H & _); discriminate].
        intros (r & H);
          repeat (destruct H as [H|H]; [discriminate|]); destruct H.
      * split; [discriminate | intros (_ & H & _); discriminate].
      * discriminate.
  - rewrite (getElementSelector_on_no_browser b h url target e1 Hl).
    cbn [bind fst snd In].
    split; [|split].
    + split; [|intros (H & _); discriminate].
      intros (r & H);
        repeat (destruct H as [H|H]; [discriminate|]); destruct H.
    + split; [discriminate | intros (H & _); discriminate].
    + discriminate.
Qed.


(** X28. Once the browser and its page are open and as long as the
    shutdown does not throw, the call ends normally whatever else throws,
    the waits, the evaluation in the page and the highlight included; it
    returns [undefined] exactly when it wrote an error to the console. *)
Theorem failures_inside_try_are_caught
        (b : browser) (h : host) (url description : jsstring) :
  launch b = Return tt ->
  newPage b = Return tt ->
  close b = Return tt ->
  exists r,
    snd (getElementSelector_on b h url description) = Return r
    /\ (r = None
        <-> exists e,
              In (ConsoleError (MsgFailed e))
                 (fst (getElementSelector_on b h url description))).
Proof.
  intros Hl Hn Hc.
  rewrite (getElementSelector_on_opened b h url description Hl Hn), Hc.
  cbn [fst snd].
  destruct (attempt_spec b h url description) as [_ Hsome].
  destruct (snd (attempt b h url description)) as [r|e].
  - exists r; split; [reflexivity|]; split.
    + intros ->; destruct (Hsome None eq_refl) as (s & Hs); discriminate.
    + intros (e & H); exfalso.
      rewrite app_assoc in H; apply in_app_or in H as [H|[H|[]]];
        [|discriminate].
      apply attempt_quiet in H; discriminate.
  - exists None; split; [reflexivity|]; split; [|reflexivity].
    intros _; exists e.
    apply in_or_app; right; apply in_or_app; right; left; reflexivity.
Qed.

Lemma failures_inside_try_are_caught_witness :
  exists r,
    snd (getElementSelector_on crashedPage (Demo.answering (lit "p")) Demo.url
           Demo.description)
    = Return r
    /\ (r = None
        <-> exists e,
              In (ConsoleError (MsgFailed e))
                 (fst (getElementSelector_on crashedPage
                         (Demo.answering (lit "p")) Demo.url
                         Demo.description))).
Proof.
  apply (failures_inside_try_are_caught crashedPage
           (Demo.answering (lit "p")) Demo.url Demo.description);
    reflexivity.
Defined.
